(** * Pose resolution, interpolation and particle field of the
      christmas-tree scene: a shallow embedding and its properties.

    The TypeScript sources are embedded as Rocq functions.  JavaScript
    numbers are read as real numbers ([R]): every formula keeps the shape
    it has in the source, and rounding is not modelled.  The primitives
    of the rendering engine that the sources call (quaternion rotation,
    look-at, spherical interpolation, world-to-local conversion) are
    the fields of the class [Engine]; every statement holds for any
    engine.  Where a statement is about the rotation that an item
    reaches, the engine's [slerp] is the one of three.js, given in
    [Slerp]. *)

From Stdlib Require Import Reals Lra Lia List String Bool Arith ZArith.
From Stdlib Require Import Machin.
Import ListNotations.
Open Scope R_scope.

(* ================================================================== *)
(** * Part I: definitions                                              *)
(* ================================================================== *)

(** ** JavaScript values used by the sources *)

Module Js.

(** [!!s] for [s : string | null]: [null] and the empty string are
    falsy, every other string is truthy. *)
Definition truthy (s : option string) : bool :=
  match s with
  | None => false
  | Some EmptyString => false
  | Some (String _ _) => true
  end.

(** [a === b] for [a : string | null] and [b : string]. *)
Definition strictEq (a : option string) (b : string) : bool :=
  match a with
  | None => false
  | Some s => String.eqb s b
  end.

(** [s.startsWith(p)]. *)
Definition startsWith (s p : string) : bool := String.prefix p s.

End Js.

(** ** The engine's vectors and the primitives the sources call *)

Module THREE.

Record Vector3 := vec3 { x : R; y : R; z : R }.

Record Quaternion := quat { qx : R; qy : R; qz : R; qw : R }.

(** [a.add(b)]. *)
Definition add (a b : Vector3) : Vector3 :=
  vec3 (x a + x b) (y a + y b) (z a + z b).

(** [a.multiplyScalar(s)]. *)
Definition multiplyScalar (a : Vector3) (s : R) : Vector3 :=
  vec3 (x a * s) (y a * s) (z a * s).

(** [a.lerp(v, alpha)]: [a.x += (v.x - a.x) * alpha], and the same
    for [y] and [z].  The factor is used as given. *)
Definition lerp (a v : Vector3) (alpha : R) : Vector3 :=
  vec3 (x a + (x v - x a) * alpha)
       (y a + (y v - y a) * alpha)
       (z a + (z v - z a) * alpha).

(** [a.distanceTo(b)]. *)
Definition distanceTo (a b : Vector3) : R :=
  sqrt ((x a - x b) * (x a - x b) + (y a - y b) * (y a - y b)
        + (z a - z b) * (z a - z b)).

(** [a'] is to [v] as [a] is to [v], scaled by [c]. *)
Definition scaledOffset (c : R) (a a' v : Vector3) : Prop :=
  x a' - x v = c * (x a - x v)
  /\ y a' - y v = c * (y a - y v)
  /\ z a' - z v = c * (z a - z v).

(** The primitives of the engine that the components call and whose
    code is not part of the repository. *)
Class Engine := {
  Matrix4 : Type;
  (** [v.applyQuaternion(q)] *)
  applyQuaternion : Vector3 -> Quaternion -> Vector3;
  (** [v.applyMatrix4(m)] *)
  applyMatrix4 : Vector3 -> Matrix4 -> Vector3;
  (** [parent.worldToLocal(v)], [m] the parent's world matrix *)
  worldToLocal : Matrix4 -> Vector3 -> Vector3;
  (** the quaternion of a fresh [Object3D] placed at the first vector
      after [lookAt] of the second *)
  lookAt : Vector3 -> Vector3 -> Quaternion;
  (** the quaternion [q] of an object after [rotateY(angle)] *)
  rotateY : Quaternion -> R -> Quaternion;
  (** [q.slerp(qb, t)] *)
  slerp : Quaternion -> Quaternion -> R -> Quaternion
}.

(** The camera as the frame callback reads it. *)
Record Camera `{Engine} := {
  position : Vector3;
  quaternion : Quaternion;
  fov : R;
  matrixWorld : Matrix4
}.

End THREE.

(** ** The engine's quaternion interpolation

    [Quaternion.slerp] of three.js ([src/math/Quaternion.js]; the code
    is not part of the repository) and the methods it rests on, with
    [angleTo], the engine's measure of the angle between two
    orientations.  Whether the interpolation of an item's rotation
    settles depends on this routine alone. *)

Module Slerp.
Import THREE.

(** [a.dot(b)]. *)
Definition dot (a b : Quaternion) : R :=
  qx a * qx b + qy a * qy b + qz a * qz b + qw a * qw b.

(** [q.length()]. *)
Definition length (q : Quaternion) : R :=
  sqrt (qx q * qx q + qy q * qy q + qz q * qz q + qw q * qw q).

(** [q.normalize()]. *)
Definition normalize (q : Quaternion) : Quaternion :=
  let l := length q in
  if Req_dec_T l 0 then quat 0 0 0 1
  else
    let l := 1 / l in
    quat (qx q * l) (qy q * l) (qz q * l) (qw q * l).

(** [MathUtils.clamp(value, min, max)]. *)
Definition clamp (value min max : R) : R := Rmax min (Rmin max value).

(** [Math.atan2(y, x)]. *)
Definition atan2 (y x : R) : R :=
  if Rlt_dec 0 x then atan (y / x)
  else if Rlt_dec x 0 then
    if Rle_dec 0 y then atan (y / x) + PI else atan (y / x) - PI
  else if Rlt_dec 0 y then PI / 2
  else if Rlt_dec y 0 then - (PI / 2)
  else 0.

(** [Number.EPSILON]. *)
Definition EPSILON : R := / 2 ^ 52.

(** [q.slerp(qb, t)]: the target is taken on the side of [q] (the
    shorter arc); [q] is kept when the two coincide; a negligible angle
    is interpolated linearly and normalized; any other angle is
    interpolated along the arc. *)
Definition slerp (q qb : Quaternion) (t : R) : Quaternion :=
  if Req_dec_T t 0 then q
  else if Req_dec_T t 1 then qb
  else
    let x := qx q in
    let y := qy q in
    let z := qz q in
    let w := qw q in
    let cosHalfTheta := w * qw qb + x * qx qb + y * qy qb + z * qz qb in
    let flip := Rlt_dec cosHalfTheta 0 in
    let this := if flip then quat (- qx qb) (- qy qb) (- qz qb) (- qw qb)
                else qb in
    let cosHalfTheta := if flip then - cosHalfTheta else cosHalfTheta in
    if Rle_dec 1.0 cosHalfTheta then q
    else
      let sqrSinHalfTheta := 1.0 - cosHalfTheta * cosHalfTheta in
      if Rle_dec sqrSinHalfTheta EPSILON then
        let s := 1 - t in
        normalize (quat (s * x + t * qx this) (s * y + t * qy this)
                        (s * z + t * qz this) (s * w + t * qw this))
      else
        let sinHalfTheta := sqrt sqrSinHalfTheta in
        let halfTheta := atan2 sinHalfTheta cosHalfTheta in
        let ratioA := sin ((1 - t) * halfTheta) / sinHalfTheta in
        let ratioB := sin (t * halfTheta) / sinHalfTheta in
        quat (x * ratioA + qx this * ratioB) (y * ratioA + qy this * ratioB)
             (z * ratioA + qz this * ratioB) (w * ratioA + qw this * ratioB).

(** [a.angleTo(b)]. *)
Definition angleTo (a b : Quaternion) : R :=
  2 * acos (Rabs (clamp (dot a b) (-1) 1)).

(** An orientation is a quaternion of length 1. *)
Definition normalized (q : Quaternion) : Prop := dot q q = 1.

(** What is left of the way to the target, as [slerp] reduces it:
    the half angle while the arc is followed, and the tangent of the
    half angle (times [sqrt (1 - EPSILON)]) once the angle is
    negligible and the interpolation linear.  [c] is the cosine of the
    half angle. *)
Definition gauge (c : R) : R :=
  if Rle_dec (1 - c * c) EPSILON
  then sqrt (1 - c * c) / c * sqrt (1 - EPSILON)
  else acos c.

Definition remaining (a b : Quaternion) : R := gauge (Rabs (dot a b)).

End Slerp.

(** ** Experience.tsx: the effective mode *)

Module Experience.

(** Modelled from the spec: the enumeration [TreeMode] of [../types],
    a file that is not among the sources.  The component names its
    value [TreeMode.CHAOS]; the spec names the two values FORMATION
    and CHAOS. *)
Inductive TreeMode := FORMATION | CHAOS.

(** [const isDetailView = !!selectedPhoto;] *)
Definition isDetailView (selectedPhoto : option string) : bool :=
  Js.truthy selectedPhoto.

(** [const effectiveMode = isDetailView ? TreeMode.CHAOS : mode;] *)
Definition effectiveMode (mode : TreeMode) (selectedPhoto : option string)
  : TreeMode :=
  if isDetailView selectedPhoto then CHAOS else mode.

End Experience.

(** ** Polaroids.tsx: per-item anchors, target pose and interpolation *)

Module Polaroids.
Import THREE.

Record PhotoData := {
  id : nat;
  url : string;
  tapePos : Vector3;
  scatterPos : Vector3;
  screenPos : Vector3;
  detailBackPos : Vector3;
  speed : R
}.

(** *** The anchors, generated once per photo list *)

(** The spiral anchor of the loop body, for index [i] of [count]. *)
Definition spiralY (count i : nat) : R :=
  let yNorm := INR i / INR count in
  3 + yNorm * 6.

Definition spiralRadius (count i : nat) : R :=
  let y := spiralY count i in
  let treeHeight := 12 in
  let treeMaxRadius := 5 in
  let treeRadiusAtY := treeMaxRadius * (1 - y / treeHeight) in
  treeRadiusAtY + 0.6.

Definition spiralTheta (i : nat) : R := INR i * 2.5.

Definition spiralAnchor (count i : nat) : Vector3 :=
  let y := spiralY count i in
  let r := spiralRadius count i in
  let theta := spiralTheta i in
  vec3 (r * cos theta) y (r * sin theta).

(** One iteration of the loop.  [random k] is the value of the [k]-th
    call of [Math.random()]; an iteration makes six calls, so iteration
    [i] starts at call [6 * i]. *)
Definition photoItem (random : nat -> R) (count i : nat) (u : string)
  : PhotoData :=
  let k := (6 * i)%nat in
  let tapePos := spiralAnchor count i in
  let dist := 6 + random k * 4 in
  let visibleHeight := 2 * dist * 0.41 in
  let visibleWidth := visibleHeight * 1.6 in
  let sx := (random (k + 1)%nat - 0.5) * visibleWidth * 0.8 in
  let sy := (random (k + 2)%nat - 0.5) * visibleHeight * 0.8 in
  let sz := - dist in
  let screenPos := vec3 sx sy sz in
  let bx := (random (k + 3)%nat - 0.5) * 25 in
  let by_ := random (k + 4)%nat * 10 in
  let bz := -5 - random (k + 5)%nat * 10 in
  let detailBackPos := vec3 bx by_ bz in
  {| id := i; url := u; tapePos := tapePos; screenPos := screenPos;
     scatterPos := vec3 0 0 0; detailBackPos := detailBackPos;
     speed := 1 |}.

(** [for (let i = 0; i < count; i++) { ... data.push(...) }], from
    index [i] on, over the photos not yet visited. *)
Fixpoint photoLoop (random : nat -> R) (count i : nat)
    (rest : list string) : list PhotoData :=
  match rest with
  | [] => []
  | u :: rest' => photoItem random count i u
                  :: photoLoop random count (S i) rest'
  end.

(** The [useMemo] of [Polaroids]. *)
Definition photoData (random : nat -> R) (uploadedPhotos : list string)
  : list PhotoData :=
  if Nat.eqb (List.length uploadedPhotos) 0 then []
  else photoLoop random (List.length uploadedPhotos) 0 uploadedPhotos.

(** *** The item component *)

(** [const isSelected = selectedPhoto === data.url;] *)
Definition isSelected (selectedPhoto : option string) (data : PhotoData)
  : bool := Js.strictEq selectedPhoto (url data).

(** [const isDetailMode = !!selectedPhoto;] *)
Definition isDetailMode (selectedPhoto : option string) : bool :=
  Js.truthy selectedPhoto.

(** The dimensions of an item.  [aspectRatio] is the width of the
    loaded image over its height, and 1 until an image is loaded: a
    positive number. *)
Definition photoWidth : R := 1.0.
Definition photoHeight (aspectRatio : R) : R := photoWidth / aspectRatio.
Definition frameWidth : R := photoWidth + 0.2.
Definition frameHeight (aspectRatio : R) : R :=
  photoHeight aspectRatio + 0.4.

(** [if (Math.abs(x) < 4) x = x > 0 ? 4 : -4;] *)
Definition keepClear (x : R) : R :=
  if Rlt_dec (Rabs x) 4 then (if Rlt_dec 0 x then 4 else -4) else x.

(** The id-derived offsets of the background branch. *)
Definition recedeSeed (data : PhotoData) : R := INR (id data) * 13.0.
Definition recedeRX (data : PhotoData) : R := sin (recedeSeed data) * 20.
Definition recedeRY (data : PhotoData) : R :=
  cos (recedeSeed data * 1.5) * 12.

(** The visible height at [distance] in front of a camera of vertical
    field of view [fov] degrees. *)
Definition visibleHeight (fov distance : R) : R :=
  2 * tan (fov * PI / 360) * distance.

Section WithEngine.
Context `{E : Engine}.

(** What the frame callback reads of [state]. *)
Record FrameState := {
  camera : Camera;
  elapsedTime : R
}.

(** The node of an item: its parent's world matrix, if it has a
    parent, and its live transform. *)
Record Group := {
  parent : option Matrix4;
  position : Vector3;
  quaternion : Quaternion;
  scale : Vector3
}.

Record Target := {
  targetPos : Vector3;
  targetRot : Quaternion;
  targetScale : Vector3
}.

(** [if (parent) targetPos = parent.worldToLocal(w.clone());
     else targetPos.copy(w);] *)
Definition toParentSpace (parent : option Matrix4) (w : Vector3)
  : Vector3 :=
  match parent with
  | Some m => worldToLocal m w
  | None => w
  end.

(** Branch [isSelected]. *)
Definition selectedTarget (state : FrameState) (parent : option Matrix4)
    (aspectRatio : R) : Target :=
  let cam := camera state in
  let cameraForward := applyQuaternion (vec3 0 0 (-1))
                         (THREE.quaternion cam) in
  let distance := 5 in
  let worldPos := add (THREE.position cam)
                      (multiplyScalar cameraForward distance) in
  let scaleFactor :=
    (visibleHeight (fov cam) distance * 0.7) / frameHeight aspectRatio in
  {| targetPos := toParentSpace parent worldPos;
     targetRot := lookAt worldPos (THREE.position cam);
     targetScale := vec3 scaleFactor scaleFactor scaleFactor |}.

(** Branch [isDetailMode] of an item that is not the selected one. *)
Definition recedeTarget (state : FrameState) (parent : option Matrix4)
    (data : PhotoData) : Target :=
  let cam := camera state in
  let distance := 25 in
  let cameraForward := applyQuaternion (vec3 0 0 (-1))
                         (THREE.quaternion cam) in
  let worldCenter := add (THREE.position cam)
                         (multiplyScalar cameraForward distance) in
  let x := keepClear (recedeRX data) in
  let y := recedeRY data in
  let cameraRight := applyQuaternion (vec3 1 0 0)
                       (THREE.quaternion cam) in
  let cameraUp := applyQuaternion (vec3 0 1 0) (THREE.quaternion cam) in
  let pos := add (add worldCenter (multiplyScalar cameraRight x))
                 (multiplyScalar cameraUp y) in
  {| targetPos := toParentSpace parent pos;
     targetRot := lookAt pos (THREE.position cam);
     targetScale := vec3 0.5 0.5 0.5 |}.

(** Branch [isFullScreen]. *)
Definition scatterTarget (state : FrameState) (parent : option Matrix4)
    (data : PhotoData) : Target :=
  let cam := camera state in
  let time := elapsedTime state in
  let worldPos := applyMatrix4 (screenPos data) (matrixWorld cam) in
  let local := toParentSpace parent worldPos in
  let wobbleX := sin (time * 1.5 + INR (id data)) * 0.1 in
  let wobbleY := cos (time * 1.0 + INR (id data)) * 0.1 in
  {| targetPos := vec3 (x local + wobbleX) (y local + wobbleY) (z local);
     targetRot := lookAt worldPos (THREE.position cam);
     targetScale := vec3 1 1 1 |}.

(** The last branch: the tape spiral, in world space. *)
Definition formationTarget (state : FrameState) (data : PhotoData)
  : Target :=
  let time := elapsedTime state in
  let cycleSpeed := 0.2 in
  let angleOffset := time * cycleSpeed in
  let x' := x (tapePos data) * cos angleOffset
            - z (tapePos data) * sin angleOffset in
  let z' := x (tapePos data) * sin angleOffset
            + z (tapePos data) * cos angleOffset in
  let pos := vec3 x' (y (tapePos data)) z' in
  {| targetPos := pos;
     targetRot := rotateY (lookAt pos (vec3 0 (y pos) 0)) PI;
     targetScale := vec3 1 1 1 |}.

(** The four branches, first match wins. *)
Definition resolveTarget (state : FrameState) (parent : option Matrix4)
    (data : PhotoData) (isFullScreen : bool)
    (selectedPhoto : option string) (aspectRatio : R) : Target :=
  if isSelected selectedPhoto data then
    selectedTarget state parent aspectRatio
  else if isDetailMode selectedPhoto then
    recedeTarget state parent data
  else if isFullScreen then
    scatterTarget state parent data
  else
    formationTarget state data.

(** [const lerpSpeed = isDetailMode || isFullScreen ? 8 : 2;] *)
Definition lerpSpeed (isFullScreen : bool)
    (selectedPhoto : option string) : R :=
  if isDetailMode selectedPhoto || isFullScreen then 8 else 2.

(** The three interpolation calls that end the callback. *)
Definition applyLerp (g : Group) (t : Target) (alpha : R) : Group :=
  {| parent := parent g;
     position := lerp (position g) (targetPos t) alpha;
     quaternion := slerp (quaternion g) (targetRot t) alpha;
     scale := lerp (scale g) (targetScale t) alpha |}.

(** The callback of [useFrame]: nothing happens while the node is not
    mounted ([groupRef.current] is [null]). *)
Definition useFrame (groupRef : option Group) (state : FrameState)
    (delta : R) (data : PhotoData) (isFullScreen : bool)
    (selectedPhoto : option string) (aspectRatio : R) : option Group :=
  match groupRef with
  | None => None
  | Some g =>
      let t := resolveTarget state (parent g) data isFullScreen
                 selectedPhoto aspectRatio in
      Some (applyLerp g t
              (delta * lerpSpeed isFullScreen selectedPhoto))
  end.

(** Frame after frame with the same target: the interpolation calls
    alone, once per elapsed-time delta. *)
Fixpoint interpolate (g : Group) (t : Target) (rate : R)
    (deltas : list R) : Group :=
  match deltas with
  | [] => g
  | delta :: rest => interpolate (applyLerp g t (delta * rate)) t rate rest
  end.

(** The callback run on successive frames, each with the state the
    engine hands over and its elapsed-time delta. *)
Fixpoint runFrames (groupRef : option Group)
    (frames : list (FrameState * R)) (data : PhotoData)
    (isFullScreen : bool) (selectedPhoto : option string)
    (aspectRatio : R) : option Group :=
  match frames with
  | [] => groupRef
  | (state, delta) :: rest =>
      runFrames (useFrame groupRef state delta data isFullScreen
                   selectedPhoto aspectRatio)
                rest data isFullScreen selectedPhoto aspectRatio
  end.

(** The target pose is [t] on every one of the frames. *)
Definition constantTarget (t : Target) (parent : option Matrix4)
    (frames : list (FrameState * R)) (data : PhotoData)
    (isFullScreen : bool) (selectedPhoto : option string)
    (aspectRatio : R) : Prop :=
  Forall (fun frame =>
            resolveTarget (fst frame) parent data isFullScreen
              selectedPhoto aspectRatio = t) frames.

End WithEngine.

(** The elapsed time of a sequence of frames. *)
Definition elapsed (deltas : list R) : R := fold_right Rplus 0 deltas.

(** Frames with a positive delta whose interpolation factor
    [delta * rate] does not exceed 1. *)
Definition steady (rate : R) (deltas : list R) : Prop :=
  Forall (fun delta => 0 < delta /\ delta * rate <= 1) deltas.

(** *** Pointer events *)

Inductive Effect :=
| StopPropagation
| OnPhotoClick (photoUrl : string).

(** [handleClick]: the calls it makes, in order. *)
Definition handleClick (data : PhotoData) (selectedPhoto : option string)
  : list Effect :=
  StopPropagation ::
  (if negb (isDetailMode selectedPhoto) then [OnPhotoClick (url data)]
   else []).

End Polaroids.

(** ** The earlier revision of Polaroids.tsx kept after Experience.tsx

    It differs from the current one in the spiral radius, in the
    background branch, and in having no scale; the formation branch,
    the interpolation factor and the click handler are the same text. *)

Module PolaroidsEarlier.
Import THREE.

(** [const r = 5.5 * (1 - yNorm * 0.5);] *)
Definition spiralRadius (count i : nat) : R :=
  let yNorm := INR i / INR count in
  5.5 * (1 - yNorm * 0.5).

Definition spiralAnchor (count i : nat) : Vector3 :=
  let yNorm := INR i / INR count in
  let y := 3 + yNorm * 6 in
  let r := spiralRadius count i in
  let theta := INR i * 2.5 in
  vec3 (r * cos theta) y (r * sin theta).

Section WithEngine.
Context `{E : Engine}.

(** The node of an item; this revision never writes its scale. *)
Record Group := {
  parent : option Matrix4;
  position : Vector3;
  quaternion : Quaternion
}.

(** Branch [isSelected]: position and rotation only. *)
Definition selectedTarget (state : Polaroids.FrameState)
    (parent : option Matrix4) : Vector3 * Quaternion :=
  let cam := Polaroids.camera state in
  let cameraForward := applyQuaternion (vec3 0 0 (-1))
                         (THREE.quaternion cam) in
  let worldPos := add (THREE.position cam)
                      (multiplyScalar cameraForward 5) in
  (Polaroids.toParentSpace parent worldPos,
   lookAt worldPos (THREE.position cam)).

(** Branch [isDetailMode]: the random background anchor, back shown. *)
Definition recedeTarget (state : Polaroids.FrameState)
    (data : Polaroids.PhotoData) : Vector3 * Quaternion :=
  let pos := Polaroids.detailBackPos data in
  (pos,
   rotateY (lookAt pos (THREE.position (Polaroids.camera state))) PI).

Definition resolveTarget (state : Polaroids.FrameState)
    (parent : option Matrix4) (data : Polaroids.PhotoData)
    (isFullScreen : bool) (selectedPhoto : option string)
  : Vector3 * Quaternion :=
  if Polaroids.isSelected selectedPhoto data then
    selectedTarget state parent
  else if Polaroids.isDetailMode selectedPhoto then
    recedeTarget state data
  else if isFullScreen then
    let t := Polaroids.scatterTarget state parent data in
    (Polaroids.targetPos t, Polaroids.targetRot t)
  else
    let t := Polaroids.formationTarget state data in
    (Polaroids.targetPos t, Polaroids.targetRot t).

Definition useFrame (groupRef : option Group)
    (state : Polaroids.FrameState) (delta : R)
    (data : Polaroids.PhotoData) (isFullScreen : bool)
    (selectedPhoto : option string) : option Group :=
  match groupRef with
  | None => None
  | Some g =>
      let t := resolveTarget state (parent g) data isFullScreen
                 selectedPhoto in
      let alpha := delta * Polaroids.lerpSpeed isFullScreen selectedPhoto in
      Some {| parent := parent g;
              position := lerp (position g) (fst t) alpha;
              quaternion := slerp (quaternion g) (snd t) alpha |}
  end.

End WithEngine.

End PolaroidsEarlier.

(** ** Snow.tsx: the vertex shader *)

Module Snow.
Import THREE.

(** GLSL [floor], [mod], [clamp] and [smoothstep]. *)
Definition floor (r : R) : R := IZR (Int_part r).
Definition mod_ (a b : R) : R := a - b * floor (a / b).
Definition clamp (v lo hi : R) : R := Rmin (Rmax v lo) hi.
Definition smoothstep (edge0 edge1 v : R) : R :=
  let t := clamp ((v - edge0) / (edge1 - edge0)) 0 1 in
  t * t * (3 - 2 * t).

(** The attributes of one particle. *)
Record Particle := {
  position : Vector3;
  aRandom : R;
  aSize : R
}.

(** [pos.y] after the wrap. *)
Definition wrappedY (uTime uHeight uSpeed : R) (p : Particle) : R :=
  let fallOffset := uTime * uSpeed * (0.5 + aRandom p * 0.5) in
  let yRange := uHeight in
  let bottom := - yRange / 2.0 in
  let newY := y (position p) - fallOffset in
  mod_ (newY - bottom) yRange + bottom.

(** [pos] as the shader leaves it before the model-view and projection
    transforms, which are the engine's. *)
Definition vertexPos (uTime uHeight uSpeed : R) (p : Particle) : Vector3 :=
  let posY := wrappedY uTime uHeight uSpeed p in
  vec3 (x (position p)
        + sin (uTime * 0.5 + posY * 0.5 + aRandom p * 10.0) * 0.5)
       posY
       (z (position p)
        + cos (uTime * 0.3 + posY * 0.5 + aRandom p * 10.0) * 0.5).

(** [vAlpha]. *)
Definition vAlpha (uTime uHeight uSpeed : R) (p : Particle) : R :=
  let yRange := uHeight in
  let bottom := - yRange / 2.0 in
  let normY := (wrappedY uTime uHeight uSpeed p - bottom) / yRange in
  smoothstep 0.0 0.1 normY * (1.0 - smoothstep 0.9 1.0 normY).

(** [uSpeed: { value: 2.0 }] and the default [height = 40]. *)
Definition uSpeedValue : R := 2.0.
Definition defaultHeight : R := 40.

(** A particle of the field, placed at the origin with [aRandom = 0]
    (both are values that [Math.random()] can produce). *)
Definition centre : Particle :=
  {| position := vec3 0 0 0; aRandom := 0; aSize := 2 |}.

End Snow.

(** ** UIOverlay.tsx: the upload handler *)

Module UIOverlay.

(** A selected file: its MIME type, and what [readAsDataURL] leaves in
    [event.target.result] when the load event fires ([None] when it
    never fires). *)
Record File := {
  type : string;
  result : option string
}.

(** A promise of the handler: [Some v] resolves with [v], [None]
    stays pending ([resolve] is called only on a truthy result). *)
Definition readerPromise (file : File) : option string :=
  if Js.truthy (result file) then result file else None.

(** The loop that fills [readers]. *)
Fixpoint readers (files : list File) : list (option string) :=
  match files with
  | [] => []
  | file :: rest =>
      if negb (Js.startsWith (type file) "image/") then readers rest
      else readerPromise file :: readers rest
  end.

Fixpoint setNth {A} (l : list A) (i : nat) (v : A) : list A :=
  match l, i with
  | [], _ => []
  | _ :: l', O => v :: l'
  | a :: l', S i' => a :: setNth l' i' v
  end.

(** [Promise.all]: one slot per promise, filled when that promise
    resolves, whatever the order of the resolutions. *)
Definition settle (promises : list (option string))
    (slots : list (option string)) (i : nat) : list (option string) :=
  match nth_error promises i, nth_error slots i with
  | Some (Some v), Some None => setNth slots i (Some v)
  | _, _ => slots
  end.

Fixpoint collect (slots : list (option string)) : option (list string) :=
  match slots with
  | [] => Some []
  | None :: _ => None
  | Some v :: rest =>
      match collect rest with
      | Some vs => Some (v :: vs)
      | None => None
      end
  end.

(** [order] lists the indices of the promises in the order in which
    their load events fire.  The result is the array the [then]
    callback receives, [None] while some promise is pending. *)
Definition promiseAll (promises : list (option string)) (order : list nat)
  : option (list string) :=
  collect (fold_left (settle promises) order
             (repeat None (List.length promises))).

(** [handleFileChange]: the argument of the one call of
    [onPhotosUpload], [None] when it is not called. *)
Definition handleFileChange (files : option (list File))
    (order : list nat) : option (list string) :=
  match files with
  | None => None
  | Some fs =>
      if Nat.eqb (List.length fs) 0 then None
      else promiseAll (readers fs) order
  end.

(** The test that accepts a file. *)
Definition isImage (file : File) : bool :=
  Js.startsWith (type file) "image/".

(** What the slots of [Promise.all] hold at any time: nothing, or the
    value of the promise of that index. *)
Definition slotsOf (promises slots : list (option string)) : Prop :=
  List.length slots = List.length promises
  /\ forall j v, nth_error slots j = Some (Some v) ->
                 nth_error promises j = Some (Some v).

End UIOverlay.

(** ** An engine for concrete evaluation

    The engine restricted to unrotated objects: world matrices are
    translations and every orientation is the identity.  The statements
    of Part II hold for every engine; this one serves to evaluate them
    at concrete inputs. *)

Module UnrotatedEngine.
Import THREE.

Definition identity : Quaternion := quat 0 0 0 1.

#[export] Instance engine : Engine := {|
  Matrix4 := Vector3;
  applyQuaternion := fun v _ => v;
  applyMatrix4 := fun v m => add v m;
  worldToLocal := fun m v => add v (multiplyScalar m (-1));
  lookAt := fun _ _ => identity;
  rotateY := fun q _ => q;
  slerp := fun _ qb _ => qb
|}.

(** A camera at [(0, 0, 10)] with a field of view of 45 degrees. *)
Definition camera : Camera :=
  {| position := vec3 0 0 10; quaternion := identity; fov := 45;
     matrixWorld := vec3 0 0 10 |}.

Definition state (t : R) : Polaroids.FrameState :=
  {| Polaroids.camera := camera; Polaroids.elapsedTime := t |}.

(** The parent of the items in the scene: a group moved to
    [(0, -5, 0)]. *)
Definition sceneParent : option Matrix4 := Some (vec3 0 (-5) 0).

Definition group (p : Vector3) : Polaroids.Group :=
  {| Polaroids.parent := sceneParent; Polaroids.position := p;
     Polaroids.quaternion := identity; Polaroids.scale := vec3 1 1 1 |}.

(** A list of one photo, selected, its node at the origin of the
    scene group. *)
Definition photoA : Polaroids.PhotoData :=
  Polaroids.photoItem (fun _ => 0.5) 1 0 "a.png".
Definition selectedA : option string := Some "a.png"%string.
Definition nodeA : Polaroids.Group := group (vec3 0 0 0).
Definition targetA : Polaroids.Target :=
  Polaroids.resolveTarget (state 0) (Polaroids.parent nodeA) photoA false
    selectedA 1.

End UnrotatedEngine.

(** ** An engine for concrete evaluation of the rotation

    As [UnrotatedEngine], with [slerp] the engine's own. *)

Module SlerpEngine.
Import THREE.

#[export] Instance engine : Engine := {|
  Matrix4 := Vector3;
  applyQuaternion := fun v _ => v;
  applyMatrix4 := fun v m => add v m;
  worldToLocal := fun m v => add v (multiplyScalar m (-1));
  lookAt := fun _ _ => UnrotatedEngine.identity;
  rotateY := fun q _ => q;
  slerp := Slerp.slerp
|}.

(** A camera at [(0, 0, 10)] with a field of view of 45 degrees. *)
Definition camera : Camera :=
  {| position := vec3 0 0 10; quaternion := UnrotatedEngine.identity;
     fov := 45; matrixWorld := vec3 0 0 10 |}.

Definition state (t : R) : Polaroids.FrameState :=
  {| Polaroids.camera := camera; Polaroids.elapsedTime := t |}.

(** The node of the photo "a.png" at the origin of the scene group
    (moved to [(0, -5, 0)]), turned by half a turn about the vertical
    axis. *)
Definition nodeTurned : Polaroids.Group :=
  {| Polaroids.parent := Some (vec3 0 (-5) 0);
     Polaroids.position := vec3 0 0 0;
     Polaroids.quaternion := quat 0 1 0 0;
     Polaroids.scale := vec3 1 1 1 |}.

Definition targetTurned : Polaroids.Target :=
  Polaroids.resolveTarget (state 0) (Polaroids.parent nodeTurned)
    UnrotatedEngine.photoA false UnrotatedEngine.selectedA 1.

End SlerpEngine.

(** ** The interpolation step in the words of the specification *)

Module Spec.
Import THREE.

(** [position += (target - position) * min(1, rate * delta)] *)
Definition clampedStep (position target : Vector3) (rate delta : R)
  : Vector3 :=
  let k := Rmin 1 (rate * delta) in
  vec3 (x position + (x target - x position) * k)
       (y position + (y target - y position) * k)
       (z position + (z target - z position) * k).

End Spec.

(** ** Polaroids.tsx: what an item keeps and draws *)

Module PolaroidItem.
Import THREE.

(** A loaded texture: where it was loaded from and, when it has an
    image, the width and height of that image. *)
Record Texture := {
  src : string;
  image : option (R * R)
}.

(** The state of the component ([useState]) together with the cursor
    style of the document body, which the pointer handlers write. *)
Record ItemState := {
  texture : option Texture;
  error : bool;
  hovered : bool;
  aspectRatio : R;
  loaded : bool;
  cursor : string
}.

(** The initial values of the [useState] calls. *)
Definition initial (cursor : string) : ItemState :=
  {| texture := None; error := false; hovered := false; aspectRatio := 1;
     loaded := false; cursor := cursor |}.

(** The success callback of [loader.load]. *)
Definition onLoad (loadedTex : Texture) (st : ItemState) : ItemState :=
  {| texture := Some loadedTex;
     error := false;
     hovered := hovered st;
     aspectRatio := match image loadedTex with
                    | Some (width, height) => width / height
                    | None => aspectRatio st
                    end;
     loaded := true;
     cursor := cursor st |}.

(** The failure callback of [loader.load]. *)
Definition onError (st : ItemState) : ItemState :=
  {| texture := texture st; error := true; hovered := hovered st;
     aspectRatio := aspectRatio st; loaded := loaded st;
     cursor := cursor st |}.

Inductive LoadEvent :=
| Loaded (loadedTex : Texture)
| Failed.

Definition onLoadEvent (st : ItemState) (e : LoadEvent) : ItemState :=
  match e with
  | Loaded loadedTex => onLoad loadedTex st
  | Failed => onError st
  end.

(** [handlePointerOver] and [handlePointerOut]. *)
Definition handlePointerOver (selectedPhoto : option string)
    (st : ItemState) : ItemState :=
  if negb (Polaroids.isDetailMode selectedPhoto) then
    {| texture := texture st; error := error st; hovered := true;
       aspectRatio := aspectRatio st; loaded := loaded st;
       cursor := "pointer" |}
  else st.

Definition handlePointerOut (st : ItemState) : ItemState :=
  {| texture := texture st; error := error st; hovered := false;
     aspectRatio := aspectRatio st; loaded := loaded st;
     cursor := "auto" |}.

Inductive PointerEvent :=
| PointerOver
| PointerOut.

Definition onPointerEvent (selectedPhoto : option string) (st : ItemState)
    (e : PointerEvent) : ItemState :=
  match e with
  | PointerOver => handlePointerOver selectedPhoto st
  | PointerOut => handlePointerOut st
  end.

(** The material of the photo area. *)
Inductive Material :=
| MeshBasic (map : Texture)
| MeshStandard (color : string).

Definition photoMaterial (st : ItemState) : Material :=
  match texture st with
  | Some t =>
      if negb (error st) then MeshBasic t
      else MeshStandard (if error st then "#550000" else "#cccccc")
  | None => MeshStandard (if error st then "#550000" else "#cccccc")
  end.

(** The meshes of the frame group.  A box or a plane is given by the
    position of its centre and its size. *)
Definition frameDepth : R := 0.05.

(** The hanging string: drawn on the main page only. *)
Definition stringShown (isFullScreen : bool)
    (selectedPhoto : option string) : bool :=
  negb (Polaroids.isDetailMode selectedPhoto) && negb isFullScreen.

Definition stringPosition (aspectRatio : R) : Vector3 :=
  vec3 0 (Polaroids.frameHeight aspectRatio / 2 + 0.4) (-0.05).

(** The backing box, centred on the group. *)
Definition framePosition : Vector3 := vec3 0 0 0.
Definition frameSize (aspectRatio : R) : Vector3 :=
  vec3 Polaroids.frameWidth (Polaroids.frameHeight aspectRatio) frameDepth.
Definition frameColor (selectedPhoto : option string)
    (data : Polaroids.PhotoData) : string :=
  if Polaroids.isSelected selectedPhoto data then "#FFD700" else "#fdfdfd".

(** The photo plane. *)
Definition photoPosition (aspectRatio : R) : Vector3 :=
  vec3 0 (Polaroids.frameHeight aspectRatio / 2 - 0.1
          - Polaroids.photoHeight aspectRatio / 2) 0.035.
Definition photoSize (aspectRatio : R) : R * R :=
  (Polaroids.photoWidth, Polaroids.photoHeight aspectRatio).

(** The ring of the selected item and the tape of the others. *)
Definition ringShown (selectedPhoto : option string)
    (data : Polaroids.PhotoData) : bool :=
  Polaroids.isSelected selectedPhoto data.
Definition ringPosition (aspectRatio : R) : Vector3 :=
  vec3 0 (Polaroids.frameHeight aspectRatio / 2 - 0.1
          - Polaroids.photoHeight aspectRatio / 2) 0.03.
Definition ringRadii (aspectRatio : R) : R * R :=
  (Rmin Polaroids.photoWidth (Polaroids.photoHeight aspectRatio) * 0.6,
   Rmin Polaroids.photoWidth (Polaroids.photoHeight aspectRatio) * 0.65).
Definition tapeShown (selectedPhoto : option string)
    (data : Polaroids.PhotoData) : bool :=
  negb (Polaroids.isSelected selectedPhoto data).
Definition tapePosition (aspectRatio : R) : Vector3 :=
  vec3 0 (Polaroids.frameHeight aspectRatio / 2 - 0.05) 0.035.
Definition tapeSize : Vector3 := vec3 0.15 0.04 0.01.

End PolaroidItem.

(** ** Snow.tsx: the attribute buffers and the fragment shader *)

Module SnowBuffers.
Import THREE.

(** The three [Float32Array]s.  A write converts the number to single
    precision: [store] is that conversion, applied to every value that
    is written.  A write outside an array is ignored, as for a typed
    array. *)
Record Buffers := {
  positions : list R;
  randoms : list R;
  sizes : list R
}.

(** The arrays as they are allocated: filled with zeros. *)
Definition allocate (count : nat) : Buffers :=
  {| positions := repeat 0 (count * 3);
     randoms := repeat 0 count;
     sizes := repeat 0 count |}.

(** One iteration of the loop.  [random k] is the value of the [k]-th
    call of [Math.random()]; an iteration makes five calls. *)
Definition fillOne (store : R -> R) (random : nat -> R) (range height : R)
    (b : Buffers) (i : nat) : Buffers :=
  let k := (5 * i)%nat in
  let pos := positions b in
  let pos := UIOverlay.setNth pos (i * 3)
               (store ((random k - 0.5) * range)) in
  let pos := UIOverlay.setNth pos (i * 3 + 1)
               (store ((random (k + 1)%nat - 0.5) * height)) in
  let pos := UIOverlay.setNth pos (i * 3 + 2)
               (store ((random (k + 2)%nat - 0.5) * range)) in
  {| positions := pos;
     randoms := UIOverlay.setNth (randoms b) i (store (random (k + 3)%nat));
     sizes := UIOverlay.setNth (sizes b) i
                (store (random (k + 4)%nat * 4.0 + 2.0)) |}.

(** The [useMemo] that fills the arrays. *)
Definition fill (store : R -> R) (random : nat -> R) (count : nat)
    (range height : R) : Buffers :=
  fold_left (fillOne store random range height) (seq 0 count)
    (allocate count).

(** The attributes the shader receives for vertex [i]: three
    consecutive entries of [positions], one of [randoms], one of
    [sizes]. *)
Definition vertex (b : Buffers) (i : nat) : Snow.Particle :=
  {| Snow.position := vec3 (nth (i * 3) (positions b) 0)
                           (nth (i * 3 + 1) (positions b) 0)
                           (nth (i * 3 + 2) (positions b) 0);
     Snow.aRandom := nth i (randoms b) 0;
     Snow.aSize := nth i (sizes b) 0 |}.

(** The arrays have the sizes they are allocated with. *)
Definition sized (count : nat) (b : Buffers) : Prop :=
  List.length (positions b) = (count * 3)%nat
  /\ List.length (randoms b) = count
  /\ List.length (sizes b) = count.

(** The values iteration [i] of the loop writes, as the arrays keep
    them, as one vertex. *)
Definition written (store : R -> R) (random : nat -> R) (range height : R)
    (i : nat) : Snow.Particle :=
  let k := (5 * i)%nat in
  {| Snow.position := vec3 (store ((random k - 0.5) * range))
                           (store ((random (k + 1)%nat - 0.5) * height))
                           (store ((random (k + 2)%nat - 0.5) * range));
     Snow.aRandom := store (random (k + 3)%nat);
     Snow.aSize := store (random (k + 4)%nat * 4.0 + 2.0) |}.

(** A conversion that keeps the order of the numbers, as rounding to
    the nearest representable value does. *)
Definition monotone (store : R -> R) : Prop :=
  forall a b, a <= b -> store a <= store b.

(** GLSL [pow] for a positive exponent: 0 at base 0, [exp (e * ln b)]
    at a positive base.  GLSL leaves a negative base undefined; the
    shader calls it on [1 - 2 d] with [d <= 0.5] only. *)
Definition pow (b e : R) : R :=
  if Rle_dec b 0 then 0 else Rpower b e.

(** The fragment shader: [None] when the fragment is discarded, else
    the alpha component of [gl_FragColor] (the colour is white). *)
Definition fragmentAlpha (pointCoord : R * R) (vAlpha : R) : option R :=
  let dx := fst pointCoord - 0.5 in
  let dy := snd pointCoord - 0.5 in
  let distanceToCenter := sqrt (dx * dx + dy * dy) in
  if Rlt_dec 0.5 distanceToCenter then None
  else
    let alpha := 1.0 - (distanceToCenter * 2.0) in
    let alpha := pow alpha 1.5 in
    Some (vAlpha * alpha * 0.8).

End SnowBuffers.

(** ** UIOverlay.tsx: what is drawn and what a click calls *)

Module OverlayView.

Inductive Callback :=
| OnBack
| OnToggleFullScreen
| OnClearPhotos
| HandleUploadClick.

Inductive Button :=
| BackButton
| ExitFullScreenButton
| FullScreenButton
| ImportButton
| ClearButton.

(** The buttons that are drawn, each with its [onClick] ([None] for
    [undefined]) and whether it is disabled. *)
Record Drawn := {
  button : Button;
  onClick : option Callback;
  disabled : bool
}.

Definition render (hasPhotos isFullScreen : bool)
    (selectedPhoto : option string) : list Drawn :=
  if Js.truthy selectedPhoto then
    [ {| button := BackButton; onClick := Some OnBack; disabled := false |} ]
  else if isFullScreen then
    [ {| button := ExitFullScreenButton; onClick := Some OnToggleFullScreen;
         disabled := false |} ]
  else
    {| button := FullScreenButton;
       onClick := if hasPhotos then Some OnToggleFullScreen else None;
       disabled := negb hasPhotos |}
    :: {| button := ImportButton; onClick := Some HandleUploadClick;
          disabled := false |}
    :: (if hasPhotos then
          [ {| button := ClearButton; onClick := Some OnClearPhotos;
               disabled := false |} ]
        else []).

(** The callback a click on [b] runs: none when the button is not
    drawn, is disabled, or has no handler. *)
Definition click (view : list Drawn) (b : Button) : option Callback :=
  match find (fun d => match button d, b with
                       | BackButton, BackButton
                       | ExitFullScreenButton, ExitFullScreenButton
                       | FullScreenButton, FullScreenButton
                       | ImportButton, ImportButton
                       | ClearButton, ClearButton => true
                       | _, _ => false
                       end) view with
  | Some d => if disabled d then None else onClick d
  | None => None
  end.

End OverlayView.

(** ** Experience.tsx: the orbit controls *)

Module Scene.

(** The properties of [OrbitControls] that depend on the state. *)
Record Controls := {
  enabled : bool;
  autoRotate : bool;
  autoRotateSpeed : R
}.

Definition controls (rotationSpeed : R) (isFullScreen : bool)
    (selectedPhoto : option string) : Controls :=
  let isDetailView := Experience.isDetailView selectedPhoto in
  {| enabled := negb isDetailView;
     autoRotate := isFullScreen && negb isDetailView;
     autoRotateSpeed := rotationSpeed |}.

End Scene.

(* ================================================================== *)
(** * Part II: properties                                              *)
(* ================================================================== *)

(** ** Truthiness *)

Lemma truthy_Some_nonempty (c : Ascii.ascii) (s : string) :
  Js.truthy (Some (String c s)) = true.
Proof. reflexivity. Qed.

Lemma truthy_true_inv (o : option string) :
  Js.truthy o = true -> exists c s, o = Some (String c s).
Proof.
  destruct o as [[|c s]|]; simpl; intros H; try discriminate.
  now exists c, s.
Qed.

(** ** The effective mode *)

Section EffectiveMode.
Import Experience.

(** The empty string is a value of [string | null] that [!!] reads as
    unset: with it the base mode is kept. *)
Lemma effectiveMode_empty_string (mode : TreeMode) :
  effectiveMode mode (Some ""%string) = mode.
Proof. reflexivity. Qed.

(** C1.  The effective mode is CHAOS whenever [selectedPhoto] is set
    (truthy: a non-empty url) and the base mode otherwise, for every
    base mode and every selection state; while a selection is set the
    result does not depend on the base mode. *)
Theorem effectiveMode_derivation (mode : TreeMode)
    (selectedPhoto : option string) :
  effectiveMode mode selectedPhoto
    = (if Js.truthy selectedPhoto then CHAOS else mode)
  /\ (forall c s, effectiveMode mode (Some (String c s)) = CHAOS)
  /\ effectiveMode mode None = mode
  /\ (forall mode' c s,
        effectiveMode mode (Some (String c s))
        = effectiveMode mode' (Some (String c s))).
Proof.
  unfold effectiveMode, isDetailView.
  repeat split; intros; reflexivity.
Qed.

End EffectiveMode.

(** ** Clicks *)

Section Clicks.
Import Polaroids.

Lemma handleClick_browsing (data : PhotoData) (sel : option string) :
  isDetailMode sel = false ->
  handleClick data sel = [StopPropagation; OnPhotoClick (url data)].
Proof. unfold handleClick; intros ->; reflexivity. Qed.

Lemma handleClick_detail (data : PhotoData) (sel : option string) :
  isDetailMode sel = true -> handleClick data sel = [StopPropagation].
Proof. unfold handleClick; intros ->; reflexivity. Qed.

(** C9.  A click calls [onPhotoClick] exactly when detail mode is not
    active, and then once, with the url of the clicked item; while a
    selection is set a click on any item, selected or not, only stops
    the propagation of the event. *)
Theorem handleClick_callback (data : PhotoData)
    (selectedPhoto : option string) :
  ((exists u, In (OnPhotoClick u) (handleClick data selectedPhoto))
     <-> isDetailMode selectedPhoto = false)
  /\ (forall u, In (OnPhotoClick u) (handleClick data selectedPhoto) ->
                u = url data)
  /\ handleClick data None = [StopPropagation; OnPhotoClick (url data)]
  /\ (forall c s,
        handleClick data (Some (String c s)) = [StopPropagation]).
Proof.
  split; [|split; [|split]].
  - destruct (isDetailMode selectedPhoto) eqn:Hd.
    + rewrite (handleClick_detail _ _ Hd). split.
      * intros [u [Hu|[]]]; discriminate.
      * discriminate.
    + rewrite (handleClick_browsing _ _ Hd). split; [reflexivity|].
      intros _. exists (url data). right; left; reflexivity.
  - intros u. unfold handleClick.
    destruct (isDetailMode selectedPhoto); simpl.
    + intros [H|[]]; discriminate.
    + intros [H|[H|[]]]; [discriminate|]. now inversion H.
  - reflexivity.
  - reflexivity.
Qed.

(** C9 on a concrete item: the same click with and without a
    selection. *)
Lemma handleClick_callback_example :
  let data := photoItem (fun _ => 0.5) 3 1 "b.png" in
  handleClick data None = [StopPropagation; OnPhotoClick "b.png"%string]
  /\ handleClick data (Some "b.png"%string) = [StopPropagation]
  /\ handleClick data (Some "a.png"%string) = [StopPropagation].
Proof.
  intros data.
  destruct (handleClick_callback data None) as (_ & _ & H1 & H2).
  split; [exact H1|].
  split; apply H2.
Defined.

End Clicks.

(** ** The upload handler *)

Section Upload.
Import UIOverlay.

Lemma length_setNth {A} (l : list A) i v :
  List.length (setNth l i v) = List.length l.
Proof.
  revert i; induction l as [|a l IH]; intros [|i]; simpl; auto.
Qed.

Lemma nth_error_setNth_eq {A} (l : list A) i v :
  (i < List.length l)%nat -> nth_error (setNth l i v) i = Some v.
Proof.
  revert i; induction l as [|a l IH]; intros [|i]; simpl; intros H;
    try lia; auto.
  apply IH; lia.
Qed.

Lemma nth_error_setNth_ne {A} (l : list A) i j v :
  i <> j -> nth_error (setNth l i v) j = nth_error l j.
Proof.
  revert i j; induction l as [|a l IH]; intros [|i] [|j]; simpl;
    intros H; auto; try congruence.
Qed.

(** The loop of the handler keeps the image files, in order. *)
Lemma readers_filter (files : list File) :
  readers files = map readerPromise (filter isImage files).
Proof.
  induction files as [|f files IH]; simpl; [reflexivity|].
  unfold isImage at 1.
  destruct (Js.startsWith (type f) "image/"); simpl; now rewrite IH.
Qed.

Lemma slotsOf_init promises :
  slotsOf promises (repeat None (List.length promises)).
Proof.
  split; [apply repeat_length|].
  intros j v H. apply nth_error_In, repeat_spec in H. discriminate.
Qed.

Lemma slotsOf_settle promises slots i :
  slotsOf promises slots -> slotsOf promises (settle promises slots i).
Proof.
  intros [Hlen Hval]. unfold settle.
  destruct (nth_error promises i) as [[v|]|] eqn:Hp; try (split; assumption).
  destruct (nth_error slots i) as [[w|]|] eqn:Hs; try (split; assumption).
  split; [now rewrite length_setNth|].
  intros j u Hj. destruct (Nat.eq_dec i j) as [<-|Hne].
  - rewrite nth_error_setNth_eq in Hj
      by (apply nth_error_Some; congruence).
    congruence.
  - rewrite nth_error_setNth_ne in Hj by assumption. now apply Hval.
Qed.

(** A filled slot stays filled. *)
Lemma settle_keeps promises slots i j v :
  nth_error slots j = Some (Some v) ->
  nth_error (settle promises slots i) j = Some (Some v).
Proof.
  intros Hj. unfold settle.
  destruct (nth_error promises i) as [[u|]|]; auto.
  destruct (nth_error slots i) as [[w|]|] eqn:Hs; auto.
  rewrite nth_error_setNth_ne; [assumption|congruence].
Qed.

(** The load event of promise [i] fills slot [i]. *)
Lemma settle_fills promises slots i v :
  slotsOf promises slots ->
  nth_error promises i = Some (Some v) ->
  nth_error (settle promises slots i) i = Some (Some v).
Proof.
  intros [Hlen Hval] Hp. unfold settle. rewrite Hp.
  destruct (nth_error slots i) as [[w|]|] eqn:Hs.
  - rewrite Hs. apply Hval in Hs. congruence.
  - apply nth_error_setNth_eq, nth_error_Some. congruence.
  - apply nth_error_None in Hs.
    assert (i < List.length promises)%nat
      by (apply nth_error_Some; congruence).
    lia.
Qed.

Lemma fold_settle promises order : forall slots,
  slotsOf promises slots ->
  let final := fold_left (settle promises) order slots in
  slotsOf promises final
  /\ forall j v, nth_error promises j = Some (Some v) ->
       (In j order \/ nth_error slots j = Some (Some v)) ->
       nth_error final j = Some (Some v).
Proof.
  induction order as [|i order IH]; intros slots Hs; simpl.
  - split; [assumption|]. intros j v _ [[]|H]; assumption.
  - destruct (IH _ (slotsOf_settle promises slots i Hs)) as [Hf Hfill].
    split; [assumption|].
    intros j v Hp [[->|Hin]|Hj].
    + apply Hfill; [assumption|]. right. now apply settle_fills.
    + apply Hfill; [assumption|]. now left.
    + apply Hfill; [assumption|]. right. now apply settle_keeps.
Qed.

Lemma collect_Some slots urls :
  collect slots = Some urls -> slots = map Some urls.
Proof.
  revert urls; induction slots as [|[v|] slots IH]; simpl; intros urls H.
  - now inversion H.
  - destruct (collect slots) as [vs|]; [|discriminate].
    inversion H; subst. simpl. now rewrite (IH vs eq_refl).
  - discriminate.
Qed.

Lemma collect_map_Some urls : collect (map Some urls) = Some urls.
Proof. induction urls as [|u urls IH]; simpl; [|rewrite IH]; reflexivity. Qed.

Lemma nth_error_ext {A} (l l' : list A) :
  (forall j, nth_error l j = nth_error l' j) -> l = l'.
Proof.
  revert l'; induction l as [|a l IH]; intros [|a' l'] H.
  - reflexivity.
  - specialize (H 0%nat); discriminate.
  - specialize (H 0%nat); discriminate.
  - pose proof (H 0%nat) as H0; simpl in H0; inversion H0; subst.
    f_equal. apply IH. intros j. exact (H (S j)).
Qed.

(** Whatever [Promise.all] delivers is the list of the promised
    values, in the order of the promises. *)
Lemma promiseAll_sound promises order urls :
  promiseAll promises order = Some urls -> promises = map Some urls.
Proof.
  unfold promiseAll. intros H. apply collect_Some in H.
  destruct (fold_settle promises order _ (slotsOf_init promises))
    as [[Hlen Hval] _].
  rewrite H in Hlen, Hval. symmetry.
  apply nth_error_ext. intros j.
  destruct (nth_error (map Some urls) j) as [[v|]|] eqn:Hj.
  - symmetry. now apply Hval.
  - apply nth_error_In, in_map_iff in Hj. destruct Hj as (? & ? & _).
    discriminate.
  - symmetry. apply nth_error_None. apply nth_error_None in Hj. lia.
Qed.

(** Once every load event has fired, in any order, it delivers. *)
Lemma promiseAll_complete urls order :
  (forall j, (j < List.length urls)%nat -> In j order) ->
  promiseAll (map Some urls) order = Some urls.
Proof.
  intros Hall. unfold promiseAll.
  destruct (fold_settle (map Some urls) order _
              (slotsOf_init (map Some urls))) as [[Hlen _] Hfill].
  cbv zeta in Hfill.
  set (final := fold_left _ _ _) in *.
  replace final with (map Some urls); [apply collect_map_Some|].
  apply nth_error_ext. intros j.
  destruct (nth_error (map Some urls) j) as [[v|]|] eqn:Hj.
  - symmetry. apply Hfill; [assumption|]. left. apply Hall.
    rewrite <- (length_map Some). apply nth_error_Some. congruence.
  - apply nth_error_In, in_map_iff in Hj. destruct Hj as (? & ? & _).
    discriminate.
  - symmetry. apply nth_error_None. apply nth_error_None in Hj. lia.
Qed.

Lemma readerPromise_Some file v :
  readerPromise file = Some v -> result file = Some v.
Proof.
  unfold readerPromise. destruct (Js.truthy (result file)); congruence.
Qed.

Lemma readerPromises_results (fs : list File) (urls : list string) :
  map readerPromise fs = map Some urls -> map result fs = map Some urls.
Proof.
  revert urls; induction fs as [|f fs IH]; intros [|u urls] H;
    simpl in *; try discriminate; [reflexivity|].
  injection H as Hf Hfs.
  rewrite (readerPromise_Some _ _ Hf), (IH _ Hfs). reflexivity.
Qed.

Lemma results_readerPromises (fs : list File) (urls : list string) :
  map result fs = map Some urls ->
  Forall (fun u => Js.truthy (Some u) = true) urls ->
  map readerPromise fs = map Some urls.
Proof.
  revert urls; induction fs as [|f fs IH]; intros [|u urls] H Ht;
    simpl in *; try discriminate; [reflexivity|].
  injection H as Hf Hfs. inversion Ht as [|? ? Hu Hus]; subst.
  rewrite (IH _ Hfs Hus). unfold readerPromise. rewrite Hf.
  change (Js.truthy (Some u) = true) in Hu. rewrite Hu. reflexivity.
Qed.

(** C10.  The list handed to [onPhotosUpload] holds one entry for each
    file whose type starts with "image/", namely the data URL read
    from it, in selection order; the other files contribute nothing.
    It is handed over once all image files have been read, in whatever
    order the reads complete. *)
Theorem handleFileChange_images (files : list File) (order : list nat) :
  (forall urls, handleFileChange (Some files) order = Some urls ->
     map Some urls = map result (filter isImage files)
     /\ List.length urls = List.length (filter isImage files))
  /\ (forall urls,
        files <> [] ->
        map result (filter isImage files) = map Some urls ->
        Forall (fun u => Js.truthy (Some u) = true) urls ->
        (forall j, (j < List.length urls)%nat -> In j order) ->
        handleFileChange (Some files) order = Some urls).
Proof.
  split.
  - intros urls H. unfold handleFileChange in H.
    destruct (Nat.eqb (List.length files) 0); [discriminate|].
    apply promiseAll_sound in H. rewrite readers_filter in H.
    apply readerPromises_results in H.
    split; [now symmetry|].
    rewrite <- (length_map Some), <- H. apply length_map.
  - intros urls Hne Hres Htruthy Hall. unfold handleFileChange.
    destruct files as [|f files]; [congruence|]. simpl Nat.eqb.
    rewrite readers_filter.
    rewrite (results_readerPromises _ _ Hres Htruthy).
    now apply promiseAll_complete.
Qed.

(** C10 on a selection of three files, the second of which is not an
    image, the third read before the first. *)
Lemma handleFileChange_images_example :
  let files := [ {| type := "image/png"; result := Some "data:a"%string |};
                 {| type := "text/plain"; result := Some "data:t"%string |};
                 {| type := "image/jpeg"; result := Some "data:c"%string |} ] in
  handleFileChange (Some files) [1; 0]%nat
  = Some ["data:a"; "data:c"]%string.
Proof.
  intros files.
  apply (proj2 (handleFileChange_images files [1; 0]%nat)).
  - discriminate.
  - reflexivity.
  - repeat constructor.
  - simpl. intros j Hj.
    destruct j as [|[|j]]; [right; left; reflexivity
                           |left; reflexivity|lia].
Defined.

End Upload.

(** ** The spiral anchors *)

Section Spiral.
Import THREE Polaroids.

Lemma photoLoop_nth random count (rest : list string) :
  forall i j u,
    nth_error rest j = Some u ->
    nth_error (photoLoop random count i rest) j
    = Some (photoItem random count (i + j) u).
Proof.
  induction rest as [|v rest IH]; intros i [|j] u H; simpl in *;
    try discriminate.
  - inversion H; subst. now rewrite Nat.add_0_r.
  - rewrite (IH (S i) j u H). f_equal. f_equal. lia.
Qed.

Lemma photoLoop_length random count (rest : list string) :
  forall i, List.length (photoLoop random count i rest) = List.length rest.
Proof. induction rest; intros i; simpl; auto. Qed.

(** One item per photo, and no item without photos. *)
Lemma photoData_length random (uploadedPhotos : list string) :
  List.length (photoData random uploadedPhotos)
  = List.length uploadedPhotos.
Proof.
  unfold photoData. destruct uploadedPhotos; simpl; [reflexivity|].
  now rewrite photoLoop_length.
Qed.

Lemma photoData_nth random (uploadedPhotos : list string) i u :
  nth_error uploadedPhotos i = Some u ->
  nth_error (photoData random uploadedPhotos) i
  = Some (photoItem random (List.length uploadedPhotos) i u).
Proof.
  intros H. unfold photoData.
  destruct uploadedPhotos as [|v l]; [destruct i; discriminate|].
  change (Nat.eqb (List.length (v :: l)) 0) with false. cbv iota.
  now rewrite (photoLoop_nth _ _ _ 0%nat i u H).
Qed.

Lemma spiralY_range count i :
  (i < count)%nat -> 3 <= spiralY count i < 9.
Proof.
  intros H. unfold spiralY.
  assert (Hc : 0 < INR count) by (apply lt_0_INR; lia).
  assert (Hi : 0 <= INR i) by apply pos_INR.
  assert (Hlt : INR i < INR count) by now apply lt_INR.
  assert (H0 : 0 <= INR i / INR count).
  { apply Rmult_le_pos; [assumption|]. left. now apply Rinv_0_lt_compat. }
  assert (H1 : INR i / INR count < 1).
  { apply Rmult_lt_reg_r with (INR count); [assumption|].
    unfold Rdiv. rewrite Rmult_assoc, Rinv_l by lra. lra. }
  cbv zeta. lra.
Qed.

(** The radius is the cone radius at the item's height plus 0.6, and
    it stays positive on the spiral. *)
Lemma spiralRadius_cone count i :
  spiralRadius count i = 5 * (1 - spiralY count i / 12) + 0.6.
Proof. reflexivity. Qed.

Lemma spiralRadius_pos count i :
  (i < count)%nat -> 1.85 < spiralRadius count i <= 4.35.
Proof.
  intros H. pose proof (spiralY_range count i H).
  rewrite spiralRadius_cone. lra.
Qed.

Lemma axis_distance (r theta : R) :
  0 <= r ->
  sqrt ((r * cos theta) * (r * cos theta)
        + (r * sin theta) * (r * sin theta)) = r.
Proof.
  intros Hr.
  replace ((r * cos theta) * (r * cos theta)
           + (r * sin theta) * (r * sin theta))
    with (r * r * ((sin theta)² + (cos theta)²)) by (unfold Rsqr; ring).
  rewrite sin2_cos2, Rmult_1_r. now apply sqrt_square.
Qed.

(** C5.  Item [i] of [count] is created with the spiral anchor of
    height [3 + (i/count) * 6], at distance
    [5 * (1 - y/12) + 0.6] from the axis and at angle [i * 2.5]. *)
Theorem spiral_anchor (random : nat -> R) (uploadedPhotos : list string)
    (i : nat) :
  (i < List.length uploadedPhotos)%nat ->
  let count := List.length uploadedPhotos in
  let yMin := 3 in
  let yMax := 9 in
  let y := yMin + (INR i / INR count) * (yMax - yMin) in
  let radius := 5 * (1 - y / 12) + 0.6 in
  let theta := INR i * 2.5 in
  exists data,
    nth_error (photoData random uploadedPhotos) i = Some data
    /\ id data = i
    /\ tapePos data = vec3 (radius * cos theta) y (radius * sin theta)
    /\ sqrt (x (tapePos data) * x (tapePos data)
             + z (tapePos data) * z (tapePos data)) = radius
    /\ yMin <= y < yMax.
Proof.
  intros Hi count yMin yMax y radius theta.
  destruct (nth_error uploadedPhotos i) as [u|] eqn:Hu;
    [|apply nth_error_None in Hu; lia].
  exists (photoItem random count i u).
  pose proof (spiralY_range count i Hi) as Hy.
  pose proof (spiralRadius_pos count i Hi) as Hr.
  assert (Ey : spiralY count i = y).
  { unfold spiralY, y, yMin, yMax. cbv zeta. lra. }
  assert (Er : spiralRadius count i = radius).
  { rewrite spiralRadius_cone, Ey. reflexivity. }
  assert (Et : tapePos (photoItem random count i u)
               = vec3 (radius * cos theta) y (radius * sin theta)).
  { unfold photoItem, spiralAnchor, spiralTheta. simpl.
    now rewrite Ey, Er. }
  split; [now apply photoData_nth|].
  split; [reflexivity|].
  split; [assumption|].
  split; [|unfold yMin, yMax; lra].
  rewrite Et. simpl. apply axis_distance. lra.
Qed.

(** C5 at the second of three photos. *)
Lemma spiral_anchor_second_of_three :
  exists data,
    nth_error (photoData (fun _ => 0.5) ["a"; "b"; "c"]%string) 1
    = Some data
    /\ y (tapePos data) = 5
    /\ sqrt (x (tapePos data) * x (tapePos data)
             + z (tapePos data) * z (tapePos data)) = 5 * (1 - 5 / 12) + 0.6.
Proof.
  destruct (spiral_anchor (fun _ => 0.5) ["a"; "b"; "c"]%string 1)
    as (data & Hn & _ & Ht & Hd & _); [simpl; lia|].
  exists data. split; [exact Hn|].
  simpl in Ht, Hd.
  replace (3 + (1 / (1 + 1 + 1)) * (9 - 3)) with 5 in Ht, Hd by lra.
  split; [now rewrite Ht|exact Hd].
Defined.

(** The earlier revision uses another radius: its first anchor lies at
    distance 5.5 from the axis, not 4.35. *)
Lemma earlier_spiralRadius_differs :
  PolaroidsEarlier.spiralRadius 3 0 = 5.5 /\ spiralRadius 3 0 = 4.35.
Proof.
  unfold PolaroidsEarlier.spiralRadius, spiralRadius, spiralY. simpl.
  split; lra.
Qed.

End Spiral.

(** ** The target pose *)

Section Targets.
Import THREE Polaroids.
Context `{E : Engine}.

Lemma isSelected_own_url (data : PhotoData) :
  isSelected (Some (url data)) data = true.
Proof. unfold isSelected, Js.strictEq. apply String.eqb_refl. Qed.

Lemma isSelected_true_iff (sel : option string) (data : PhotoData) :
  isSelected sel data = true <-> sel = Some (url data).
Proof.
  unfold isSelected, Js.strictEq. destruct sel as [s|].
  - rewrite String.eqb_eq. split; congruence.
  - split; discriminate.
Qed.

Lemma resolveTarget_selected state parent data isFullScreen aspectRatio :
  resolveTarget state parent data isFullScreen (Some (url data)) aspectRatio
  = selectedTarget state parent aspectRatio.
Proof. unfold resolveTarget. now rewrite isSelected_own_url. Qed.

Lemma resolveTarget_recede state parent data isFullScreen sel aspectRatio :
  isSelected sel data = false -> isDetailMode sel = true ->
  resolveTarget state parent data isFullScreen sel aspectRatio
  = recedeTarget state parent data.
Proof. unfold resolveTarget. now intros -> ->. Qed.

Lemma resolveTarget_formation state parent data aspectRatio :
  resolveTarget state parent data false None aspectRatio
  = formationTarget state data.
Proof. reflexivity. Qed.

Lemma frameHeight_pos aspectRatio :
  0 < aspectRatio -> 0.4 < frameHeight aspectRatio.
Proof.
  intros H. unfold frameHeight, photoHeight, photoWidth.
  assert (0 < 1.0 / aspectRatio)
    by (apply Rdiv_lt_0_compat; [lra|assumption]).
  lra.
Qed.

(** C2.  The selected item is sent five units in front of the camera,
    in the space of its parent when it has one, turned to the camera
    from that world position, and scaled by
    [(2 * tan (fov/2) * 5 * 0.7) / frameHeight] on the three axes
    ([fov] in degrees, so that the half angle is [fov * PI / 360]);
    its scaled height is then 70% of the height visible at distance 5. *)
Theorem selected_target (state : FrameState) (parent : option Matrix4)
    (data : PhotoData) (isFullScreen : bool) (aspectRatio : R) :
  let t := resolveTarget state parent data isFullScreen
             (Some (url data)) aspectRatio in
  let cam := camera state in
  let cameraForward := applyQuaternion (vec3 0 0 (-1))
                         (THREE.quaternion cam) in
  let worldPos := add (THREE.position cam)
                      (multiplyScalar cameraForward 5) in
  let factor := (2 * tan (fov cam * PI / 360) * 5 * 0.7)
                / frameHeight aspectRatio in
  targetPos t = match parent with
                | Some m => worldToLocal m worldPos
                | None => worldPos
                end
  /\ targetRot t = lookAt worldPos (THREE.position cam)
  /\ targetScale t = vec3 factor factor factor
  /\ (0 < aspectRatio ->
      factor * frameHeight aspectRatio
      = 0.7 * (2 * tan (fov cam * PI / 360) * 5)).
Proof.
  intros t cam cameraForward worldPos factor. subst t.
  rewrite resolveTarget_selected.
  split; [reflexivity|]. split; [reflexivity|]. split; [reflexivity|].
  intros Har. pose proof (frameHeight_pos _ Har).
  unfold factor. field. lra.
Qed.

(** C6.  With no selection and outside full screen, the target is the
    tape anchor turned about the vertical axis by [time * 0.2]: height
    and distance to the axis are kept, an item created at angle
    [theta] of the spiral stands at angle [theta + time * 0.2], and
    the orientation is the look-at of the axis point of the same
    height followed by a half turn about the vertical. *)
Theorem formation_target (state : FrameState) (parent : option Matrix4)
    (data : PhotoData) (aspectRatio : R) :
  let t := resolveTarget state parent data false None aspectRatio in
  let angle := elapsedTime state * 0.2 in
  let anchor := tapePos data in
  targetPos t = vec3 (x anchor * cos angle - z anchor * sin angle)
                     (y anchor)
                     (x anchor * sin angle + z anchor * cos angle)
  /\ y (targetPos t) = y anchor
  /\ x (targetPos t) * x (targetPos t) + z (targetPos t) * z (targetPos t)
     = x anchor * x anchor + z anchor * z anchor
  /\ targetRot t
     = rotateY (lookAt (targetPos t) (vec3 0 (y (targetPos t)) 0)) PI
  /\ targetScale t = vec3 1 1 1
  /\ (forall random count i u,
        let item := photoItem random count i u in
        let r := spiralRadius count i in
        let theta := spiralTheta i in
        targetPos (resolveTarget state parent item false None aspectRatio)
        = vec3 (r * cos (theta + angle)) (spiralY count i)
               (r * sin (theta + angle))).
Proof.
  intros t angle anchor. subst t. rewrite resolveTarget_formation.
  unfold formationTarget. simpl. fold angle. fold anchor.
  split; [reflexivity|]. split; [reflexivity|].
  split.
  { replace ((x anchor * cos angle - z anchor * sin angle)
             * (x anchor * cos angle - z anchor * sin angle)
             + (x anchor * sin angle + z anchor * cos angle)
               * (x anchor * sin angle + z anchor * cos angle))
      with ((x anchor * x anchor + z anchor * z anchor)
            * ((sin angle)² + (cos angle)²)) by (unfold Rsqr; ring).
    rewrite sin2_cos2. ring. }
  split; [reflexivity|]. split; [reflexivity|].
  intros random count i u.
  unfold photoItem, spiralAnchor. simpl.
  rewrite cos_plus, sin_plus. f_equal; ring.
Qed.

End Targets.

(** C2 for a square photo seen by the camera of the evaluation engine:
    the frame is 1.4 high and fills 70% of the visible height. *)
Lemma selected_target_square_photo :
  let state := UnrotatedEngine.state 0 in
  let data := Polaroids.photoItem (fun _ => 0.5) 3 1 "b.png" in
  let t := Polaroids.resolveTarget state UnrotatedEngine.sceneParent data
             false (Some "b.png"%string) 1 in
  Polaroids.targetPos t = THREE.vec3 0 5 5
  /\ THREE.x (Polaroids.targetScale t) * Polaroids.frameHeight 1
     = 0.7 * (2 * tan (45 * PI / 360) * 5).
Proof.
  intros state data t.
  destruct (selected_target state UnrotatedEngine.sceneParent data false 1)
    as (Hp & _ & Hs & Hf).
  change (Polaroids.resolveTarget state UnrotatedEngine.sceneParent data
            false (Some (Polaroids.url data)) 1) with t in Hp, Hs.
  split.
  - rewrite Hp. simpl. unfold THREE.add, THREE.multiplyScalar. simpl.
    f_equal; lra.
  - rewrite Hs. simpl. apply Hf. lra.
Defined.

(** ** The keep-clear rule of the background items *)

Lemma PI_bounds : 3.1415 < PI < 3.1421.
Proof.
  pose proof (PI_2_3_7_ineq 1) as H.
  unfold sum_f_R0, tg_alt, PI_2_3_7_tg, Ratan_seq in H. simpl in H.
  lra.
Qed.

Section KeepClear.
Import THREE Polaroids.


Lemma keepClear_inside_nonpos (v : R) :
  Rabs v < 4 -> v <= 0 -> keepClear v = -4.
Proof.
  intros Ha Hp. unfold keepClear.
  destruct (Rlt_dec (Rabs v) 4); [|contradiction].
  destruct (Rlt_dec 0 v); [lra|reflexivity].
Qed.


(** The offset that is used never lies inside the radius. *)
Lemma keepClear_clear (v : R) : 4 <= Rabs (keepClear v).
Proof.
  unfold keepClear.
  destruct (Rlt_dec (Rabs v) 4) as [Hin|Hout]; [|lra].
  destruct (Rlt_dec 0 v).
  - rewrite Rabs_pos_eq; lra.
  - rewrite Rabs_left; lra.
Qed.

(** An offset of exactly zero, which is that of the item of id 0, has
    no sign to keep: it is sent to the negative boundary. *)
Lemma keepClear_zero : keepClear 0 = -4.
Proof. apply keepClear_inside_nonpos; [rewrite Rabs_R0|]; lra. Qed.

Lemma recedeRX_first random count u :
  recedeRX (photoItem random count 0 u) = 0.
Proof.
  unfold recedeRX, recedeSeed. simpl. rewrite Rmult_0_l, sin_0. ring.
Qed.


Context `{E : Engine}.


End KeepClear.


(** ** The engine's slerp on orientations *)

Section Rotation.
Import THREE Slerp.

(** [Number.EPSILON] is [2 ^ -52]. *)
Lemma EPSILON_range : 0 < EPSILON < 1.
Proof.
  unfold EPSILON. assert (H : 1 < 2 ^ 52) by (apply Rlt_pow_R1; [lra|lia]).
  split.
  - apply Rinv_0_lt_compat. lra.
  - rewrite <- Rinv_1. apply Rinv_lt_contravar; lra.
Qed.

(** The inequality of Cauchy and Schwarz, from the identity of
    Lagrange. *)
Lemma dot_cauchy (a b : Quaternion) :
  dot a b * dot a b <= dot a a * dot b b.
Proof.
  assert (H : dot a a * dot b b - dot a b * dot a b
              = Rsqr (qx a * qy b - qy a * qx b)
                + Rsqr (qx a * qz b - qz a * qx b)
                + Rsqr (qx a * qw b - qw a * qx b)
                + Rsqr (qy a * qz b - qz a * qy b)
                + Rsqr (qy a * qw b - qw a * qy b)
                + Rsqr (qz a * qw b - qw a * qz b))
    by (unfold dot, Rsqr; ring).
  pose proof (Rle_0_sqr (qx a * qy b - qy a * qx b)).
  pose proof (Rle_0_sqr (qx a * qz b - qz a * qx b)).
  pose proof (Rle_0_sqr (qx a * qw b - qw a * qx b)).
  pose proof (Rle_0_sqr (qy a * qz b - qz a * qy b)).
  pose proof (Rle_0_sqr (qy a * qw b - qw a * qy b)).
  pose proof (Rle_0_sqr (qz a * qw b - qw a * qz b)).
  lra.
Qed.

(** The dot product of two orientations is a cosine. *)
Lemma normalized_dot_range (a b : Quaternion) :
  normalized a -> normalized b -> -1 <= dot a b <= 1.
Proof.
  intros Ha Hb. pose proof (dot_cauchy a b) as H.
  rewrite Ha, Hb in H. nra.
Qed.

(** An angle is at most its tangent, in the form without division. *)
Lemma x_cos_le_sin (v : R) : 0 <= v <= 2 -> v * cos v <= sin v.
Proof.
  intros Hv.
  assert (t1 : cos v <= 1 - v * v / 2 + v * v * v * v / 24).
  { destruct (pre_cos_bound v 0) as [_ t]; try lra; revert t.
    unfold cos_approx, cos_term; simpl; intros t; apply Rle_trans with (1:=t).
    apply Req_le; field. }
  assert (t2 : v - v * v * v / 6 <= sin v).
  { destruct (pre_sin_bound v 0) as [t _]; try lra; revert t.
    unfold sin_approx, sin_term; simpl; intros t; apply Rle_trans with (2:=t).
    apply Req_le; field. }
  apply Rle_trans with (2 := t2).
  apply Rle_trans with (v * (1 - v * v / 2 + v * v * v * v / 24)).
  - apply Rmult_le_compat_l; lra.
  - assert (0 <= v * v * v) by (apply Rmult_le_pos; [nra|lra]).
    assert (v * v <= 4) by nra.
    nra.
Qed.

Lemma acos_quarter (c : R) : 0 <= c <= 1 -> 0 <= acos c <= PI / 2.
Proof.
  intros Hc. pose proof (acos_bound c) as [H0 H1]. split; [exact H0|].
  destruct (Rle_dec (acos c) (PI / 2)) as [|Hn]; [assumption|exfalso].
  assert (Hlt : cos (acos c) < 0) by (apply cos_lt_0; lra).
  rewrite cos_acos in Hlt by lra. lra.
Qed.

(** [acos] is decreasing. *)
Lemma acos_antitone (c c' : R) :
  -1 <= c -> c <= c' -> c' <= 1 -> acos c' <= acos c.
Proof.
  intros H0 H1 H2.
  destruct (Rle_dec (acos c') (acos c)) as [|Hn]; [assumption|exfalso].
  pose proof (acos_bound c). pose proof (acos_bound c').
  assert (Hlt : cos (acos c') < cos (acos c))
    by (apply cos_decreasing_1; lra).
  rewrite !cos_acos in Hlt by lra. lra.
Qed.

(** The half angle that [slerp] computes with [atan2] is the arc
    cosine of [cosHalfTheta]. *)
Lemma atan2_acos (c : R) :
  0 <= c < 1 -> atan2 (sqrt (1 - c * c)) c = acos c.
Proof.
  intros Hc. unfold atan2.
  destruct (Rlt_dec 0 c) as [Hp|Hz].
  - rewrite acos_atan by assumption. reflexivity.
  - assert (c = 0) by lra. subst c.
    destruct (Rlt_dec 0 0) as [|_]; [lra|].
    replace (1 - 0 * 0) with 1 by ring. rewrite sqrt_1.
    destruct (Rlt_dec 0 1) as [_|]; [|lra].
    now rewrite acos_0.
Qed.

(** Within the small-angle branch the cosine is close to 1. *)
Lemma near_cos (c : R) :
  0 <= c -> 1 - c * c <= EPSILON -> sqrt (1 - EPSILON) <= c.
Proof.
  intros Hc Hz. pose proof EPSILON_range.
  rewrite <- (sqrt_square c) by assumption.
  apply sqrt_le_1_alt. lra.
Qed.

Lemma sqrt_1_EPSILON : 0 < sqrt (1 - EPSILON) <= 1.
Proof.
  pose proof EPSILON_range. split.
  - apply sqrt_lt_R0. lra.
  - rewrite <- sqrt_1 at 2. apply sqrt_le_1_alt. lra.
Qed.

(** In the small-angle branch: [tan theta * sigma <= theta <= tan theta]. *)
Lemma near_tangent (c : R) :
  0 <= c <= 1 -> 1 - c * c <= EPSILON ->
  sqrt (1 - c * c) / c * sqrt (1 - EPSILON) <= acos c
  /\ acos c <= sqrt (1 - c * c) / c.
Proof.
  intros Hc Hz. pose proof sqrt_1_EPSILON as Hs.
  pose proof (near_cos c (proj1 Hc) Hz) as Hn.
  assert (Hcp : 0 < c) by lra.
  pose proof (acos_quarter c Hc) as Hq.
  assert (Hsin : sin (acos c) = sqrt (1 - c * c))
    by (rewrite sin_acos by lra; reflexivity).
  assert (Hcos : cos (acos c) = c) by (apply cos_acos; lra).
  rewrite <- Hsin.
  assert (H0 : 0 <= sin (acos c)) by (rewrite Hsin; apply sqrt_pos).
  split.
  - assert (Hle : sin (acos c) <= acos c).
    { destruct (Req_dec (acos c) 0) as [->|Hne].
      - rewrite sin_0. lra.
      - left. apply sin_lt_x. lra. }
    unfold Rdiv. rewrite Rmult_assoc.
    apply Rle_trans with (sin (acos c) * 1); [|lra].
    apply Rmult_le_compat_l; [assumption|].
    apply Rmult_le_reg_l with c; [assumption|].
    rewrite <- Rmult_assoc, Rinv_r by lra. lra.
  - assert (Hx : acos c * cos (acos c) <= sin (acos c)).
    { apply x_cos_le_sin. pose proof PI_4. lra. }
    rewrite Hcos in Hx.
    apply Rmult_le_reg_r with c; [assumption|].
    unfold Rdiv. rewrite Rmult_assoc, Rinv_l by lra. lra.
Qed.

(** The measure [remaining] lies between [sigma] times the half angle
    and the half angle. *)
Lemma remaining_half_angle (a b : Quaternion) :
  normalized a -> normalized b ->
  let theta := acos (Rabs (dot a b)) in
  theta * sqrt (1 - EPSILON) <= remaining a b <= theta.
Proof.
  intros Ha Hb theta. unfold remaining, gauge. fold theta.
  pose proof (normalized_dot_range a b Ha Hb) as Hd.
  assert (Hc : 0 <= Rabs (dot a b) <= 1)
    by (split; [apply Rabs_pos|apply Rabs_le; lra]).
  pose proof sqrt_1_EPSILON as Hs.
  pose proof (acos_quarter _ Hc) as Hq. fold theta in Hq.
  destruct (Rle_dec _ _) as [Hz|Hz].
  - destruct (near_tangent _ Hc Hz) as [H1 H2]. fold theta in H1, H2.
    split; [|exact H1].
    apply Rmult_le_compat_r; lra.
  - split; [|lra]. nra.
Qed.

(** Between orientations, [angleTo] is twice the half angle: the
    clamp leaves the dot product as it is. *)
Lemma angleTo_half_angle (a b : Quaternion) :
  normalized a -> normalized b -> angleTo a b = 2 * acos (Rabs (dot a b)).
Proof.
  intros Ha Hb. unfold angleTo, clamp.
  pose proof (normalized_dot_range a b Ha Hb) as Hd.
  rewrite Rmin_right by lra. rewrite Rmax_right by lra. reflexivity.
Qed.


(** A step that scales the half angle by [1 - t], from outside the
    small-angle branch. *)
Lemma gauge_spherical (c c' t : R) :
  0 <= c <= 1 -> 0 <= c' <= 1 -> 0 <= t <= 1 ->
  ~ 1 - c * c <= EPSILON ->
  acos c' <= (1 - t) * acos c ->
  gauge c' <= (1 - t) * gauge c.
Proof.
  intros Hc Hc' Ht Hz Ha. unfold gauge at 2.
  destruct (Rle_dec (1 - c * c) EPSILON) as [|_]; [contradiction|].
  unfold gauge. destruct (Rle_dec (1 - c' * c') EPSILON) as [Hz'|_].
  - destruct (near_tangent _ Hc' Hz') as [H1 _]. lra.
  - exact Ha.
Qed.

(** A step that scales the tangent of the half angle by at most
    [1 - t], within the small-angle branch. *)
Lemma gauge_linear (c c' t : R) :
  0 < c -> c <= c' -> c' <= 1 -> 0 <= t <= 1 ->
  1 - c * c <= EPSILON ->
  sqrt (1 - c' * c') / c' <= (1 - t) * (sqrt (1 - c * c) / c) ->
  gauge c' <= (1 - t) * gauge c.
Proof.
  intros Hc Hcc Hc' Ht Hz Ha. unfold gauge.
  destruct (Rle_dec (1 - c * c) EPSILON) as [_|]; [|contradiction].
  destruct (Rle_dec (1 - c' * c') EPSILON) as [_|Hn]; [|exfalso; nra].
  pose proof sqrt_1_EPSILON.
  rewrite <- Rmult_assoc. apply Rmult_le_compat_r; lra.
Qed.

Lemma gauge_one : gauge 1 = 0.
Proof.
  unfold gauge. pose proof EPSILON_range.
  destruct (Rle_dec (1 - 1 * 1) EPSILON) as [_|Hn]; [|exfalso; lra].
  replace (1 - 1 * 1) with 0 by ring. rewrite sqrt_0. lra.
Qed.

(** The spherical branch of [slerp]: the result is a normalized quaternion
    at half angle [(1 - t) * halfTheta] of the target. *)
Lemma spherical_step (q b : Quaternion) (t : R) :
  normalized q -> normalized b -> 0 <= dot q b < 1 ->
  let c := dot q b in
  let sinHalfTheta := sqrt (1 - c * c) in
  let halfTheta := acos c in
  let ratioA := sin ((1 - t) * halfTheta) / sinHalfTheta in
  let ratioB := sin (t * halfTheta) / sinHalfTheta in
  let r := quat (qx q * ratioA + qx b * ratioB)
                (qy q * ratioA + qy b * ratioB)
                (qz q * ratioA + qz b * ratioB)
                (qw q * ratioA + qw b * ratioB) in
  normalized r /\ dot r b = cos ((1 - t) * halfTheta).
Proof.
  intros Hq Hb Hc c sinHalfTheta halfTheta ratioA ratioB r.
  fold c in Hc.
  assert (Hs2 : 0 < 1 - c * c) by nra.
  assert (Hs : 0 < sinHalfTheta) by (apply sqrt_lt_R0; exact Hs2).
  assert (Hss : sinHalfTheta * sinHalfTheta = 1 - c * c)
    by (apply sqrt_sqrt; lra).
  assert (Hsin : sin halfTheta = sinHalfTheta)
    by (unfold halfTheta; rewrite sin_acos by lra; reflexivity).
  assert (Hcos : cos halfTheta = c)
    by (apply cos_acos; lra).
  set (a := (1 - t) * halfTheta) in *.
  assert (HB : sin (t * halfTheta) = sinHalfTheta * cos a - c * sin a).
  { replace (t * halfTheta) with (halfTheta - a) by (unfold a; ring).
    rewrite sin_minus, Hsin, Hcos. ring. }
  pose proof (sin2_cos2 a) as Ha. unfold Rsqr in Ha.
  assert (Hrb : dot r b = ratioA * dot q b + ratioB * dot b b)
    by (unfold r, dot; simpl; ring).
  assert (Hrr : dot r r
                = ratioA * ratioA * dot q q + 2 * (ratioA * ratioB) * dot q b
                  + ratioB * ratioB * dot b b)
    by (unfold r, dot; simpl; ring).
  unfold normalized in *. rewrite Hrr, Hrb, Hq, Hb. fold c.
  unfold ratioA, ratioB. rewrite HB.
  remember (sin a) as sa eqn:Esa. remember (cos a) as ca eqn:Eca.
  clear Esa Eca HB.
  split.
  - assert (Hnum : sa * sa + 2 * (sa * (sinHalfTheta * ca - c * sa)) * c
                   + (sinHalfTheta * ca - c * sa)
                     * (sinHalfTheta * ca - c * sa)
                   = sinHalfTheta * sinHalfTheta).
    { replace (sa * sa + 2 * (sa * (sinHalfTheta * ca - c * sa)) * c
               + (sinHalfTheta * ca - c * sa) * (sinHalfTheta * ca - c * sa))
        with (sa * sa * (1 - c * c)
              + sinHalfTheta * sinHalfTheta * (ca * ca)) by ring.
      rewrite <- Hss.
      replace (ca * ca) with (1 - sa * sa) by lra. ring. }
    transitivity ((sa * sa + 2 * (sa * (sinHalfTheta * ca - c * sa)) * c
                   + (sinHalfTheta * ca - c * sa)
                     * (sinHalfTheta * ca - c * sa))
                  / (sinHalfTheta * sinHalfTheta)); [field; lra|].
    rewrite Hnum. field. lra.
  - field. lra.
Qed.


(** The small-angle branch of [slerp]: the result is a normalized quaternion
    that is no farther from the target, and the tangent of its half
    angle is at most [1 - t] times what it was. *)
Lemma linear_step (q b : Quaternion) (t : R) :
  normalized q -> normalized b -> 0 <= dot q b <= 1 -> 0 <= t <= 1 ->
  let c := dot q b in
  let s := 1 - t in
  let r := normalize (quat (s * qx q + t * qx b) (s * qy q + t * qy b)
                           (s * qz q + t * qz b) (s * qw q + t * qw b)) in
  normalized r
  /\ c <= dot r b <= 1
  /\ (0 < c ->
      sqrt (1 - dot r b * dot r b) / dot r b
      <= (1 - t) * (sqrt (1 - c * c) / c)).
Proof.
  intros Hq Hb Hc Ht c s r. fold c in Hc.
  set (v := quat (s * qx q + t * qx b) (s * qy q + t * qy b)
                 (s * qz q + t * qz b) (s * qw q + t * qw b)) in *.
  set (n := s * s + 2 * (s * t) * c + t * t).
  assert (Hvv : dot v v = n).
  { transitivity (s * s * dot q q + 2 * (s * t) * dot q b + t * t * dot b b).
    - unfold v, dot; simpl; ring.
    - unfold normalized in *. rewrite Hq, Hb. fold c. unfold n. ring. }
  assert (Hn : 0 < n).
  { assert (0 <= (s * t) * c)
      by (apply Rmult_le_pos; [apply Rmult_le_pos; unfold s; lra|lra]).
    pose proof (Rle_0_sqr (1 - 2 * t)) as Hsq. unfold Rsqr in Hsq.
    unfold n, s in *. lra. }
  set (w := sqrt n).
  assert (Hw : 0 < w) by (apply sqrt_lt_R0; exact Hn).
  assert (Hww : w * w = n) by (apply sqrt_sqrt; lra).
  assert (Hlen : length v = w) by (unfold length, w; f_equal; exact Hvv).
  assert (Hr : r = quat (qx v * (1 / w)) (qy v * (1 / w)) (qz v * (1 / w))
                        (qw v * (1 / w))).
  { unfold r, normalize. rewrite Hlen.
    destruct (Req_dec_T w 0) as [H0|_]; [lra|reflexivity]. }
  assert (Hrr : dot r r = 1).
  { rewrite Hr.
    transitivity (dot v v * (1 / w) * (1 / w)).
    - unfold dot; simpl; ring.
    - rewrite Hvv, <- Hww. field. lra. }
  set (k := s * c + t).
  assert (Hrb : dot r b = k / w).
  { rewrite Hr.
    transitivity ((s * dot q b + t * dot b b) * (1 / w)).
    - unfold v, dot; simpl; ring.
    - unfold normalized in Hb. rewrite Hb. fold c. unfold k. field. lra. }
  assert (Hk : c <= k) by (unfold k, s; nra).
  assert (Hkw : c * w <= k).
  { assert (Hsq : (c * w) * (c * w) <= k * k).
    { replace (c * w * (c * w)) with (c * c * n) by (rewrite <- Hww; ring).
      assert (0 <= (1 - c * c) * (t * (t + 2 * (s * c)))).
      { apply Rmult_le_pos; [nra|]. apply Rmult_le_pos; [lra|].
        unfold s. nra. }
      unfold n, k. nra. }
    assert (0 <= c * w) by nra.
    destruct (Rle_dec (c * w) k) as [|Hgt]; [assumption|exfalso].
    assert (0 < (c * w - k) * (c * w + k)) by (apply Rmult_lt_0_compat; lra).
    lra. }
  split; [exact Hrr|].
  pose proof (normalized_dot_range r b Hrr Hb) as Hrange.
  split.
  - split; [|lra]. rewrite Hrb.
    apply Rmult_le_reg_r with w; [assumption|].
    unfold Rdiv. rewrite Rmult_assoc, Rinv_l by lra. lra.
  - intros Hcp.
    assert (Hkp : 0 < k) by lra.
    set (sh := sqrt (1 - c * c)).
    assert (Hsh : 0 <= sh) by apply sqrt_pos.
    assert (Hshsh : sh * sh = 1 - c * c) by (apply sqrt_sqrt; nra).
    assert (Hroot : sqrt (1 - dot r b * dot r b) = s * sh / w).
    { apply sqrt_lem_1.
      - nra.
      - apply Rmult_le_pos; [apply Rmult_le_pos; [unfold s; lra|assumption]|].
        left. now apply Rinv_0_lt_compat.
      - rewrite Hrb.
        assert (E1 : s * sh / w * (s * sh / w) = s * s * (sh * sh) / (w * w))
          by (field; lra).
        assert (E2 : 1 - k / w * (k / w) = (w * w - k * k) / (w * w))
          by (field; lra).
        rewrite E1, E2, Hshsh, Hww. f_equal. unfold n, k, s. ring. }
    rewrite Hroot, Hrb. fold s.
    replace (s * sh / w / (k / w)) with (s * (sh / k)) by (field; lra).
    apply Rmult_le_compat_l; [unfold s; lra|].
    apply Rmult_le_compat_l; [assumption|].
    apply Rinv_le_contravar; lra.
Qed.


(** [slerp] once the target [b] is on the side of [q]: the three
    branches that follow the sign test. *)
Lemma slerp_arc (q b : Quaternion) (t c : R) :
  normalized q -> normalized b -> c = dot q b -> 0 <= c -> 0 <= t <= 1 ->
  let r :=
    if Rle_dec 1.0 c then q
    else
      if Rle_dec (1.0 - c * c) EPSILON then
        normalize (quat ((1 - t) * qx q + t * qx b)
                        ((1 - t) * qy q + t * qy b)
                        ((1 - t) * qz q + t * qz b)
                        ((1 - t) * qw q + t * qw b))
      else
        quat (qx q * (sin ((1 - t) * atan2 (sqrt (1.0 - c * c)) c)
                      / sqrt (1.0 - c * c))
              + qx b * (sin (t * atan2 (sqrt (1.0 - c * c)) c)
                        / sqrt (1.0 - c * c)))
             (qy q * (sin ((1 - t) * atan2 (sqrt (1.0 - c * c)) c)
                      / sqrt (1.0 - c * c))
              + qy b * (sin (t * atan2 (sqrt (1.0 - c * c)) c)
                        / sqrt (1.0 - c * c)))
             (qz q * (sin ((1 - t) * atan2 (sqrt (1.0 - c * c)) c)
                      / sqrt (1.0 - c * c))
              + qz b * (sin (t * atan2 (sqrt (1.0 - c * c)) c)
                        / sqrt (1.0 - c * c)))
             (qw q * (sin ((1 - t) * atan2 (sqrt (1.0 - c * c)) c)
                      / sqrt (1.0 - c * c))
              + qw b * (sin (t * atan2 (sqrt (1.0 - c * c)) c)
                        / sqrt (1.0 - c * c))) in
  normalized r
  /\ 0 <= dot r b
  /\ gauge (dot r b) <= (1 - t) * gauge c
  /\ acos (dot r b) <= acos c.
Proof.
  intros Hq Hb Hc H0 Ht r.
  pose proof (normalized_dot_range q b Hq Hb) as Hrange.
  rewrite <- Hc in Hrange.
  unfold r. clear r.
  destruct (Rle_dec 1.0 c) as [H1|H1].
  - assert (E : c = 1) by lra. rewrite <- Hc, E, gauge_one.
    split; [exact Hq|]. split; [lra|]. split; lra.
  - destruct (Rle_dec (1.0 - c * c) EPSILON) as [Hz|Hz].
    + assert (Hz' : 1 - c * c <= EPSILON) by lra.
      pose proof (near_cos c H0 Hz') as Hn. pose proof sqrt_1_EPSILON as Hs.
      assert (Hcp : 0 < c) by lra.
      destruct (linear_step q b t Hq Hb) as (Hu & Hd & Htan);
        [rewrite <- Hc; lra|exact Ht|].
      rewrite <- Hc in Hd, Htan.
      split; [exact Hu|]. split; [lra|]. split.
      * apply gauge_linear; lra.
      * apply acos_antitone; lra.
    + replace (1.0 - c * c) with (1 - c * c) in * by lra.
      rewrite atan2_acos by lra.
      destruct (spherical_step q b t Hq Hb) as (Hu & Hd);
        [rewrite <- Hc; lra|].
      rewrite <- Hc in Hu, Hd.
      pose proof (acos_quarter c) as Hq4.
      assert (Ha : 0 <= (1 - t) * acos c <= PI / 2) by nra.
      assert (Hcos : 0 <= cos ((1 - t) * acos c))
        by (apply cos_ge_0; lra).
      pose proof (COS_bound ((1 - t) * acos c)) as Hcb.
      assert (Hacos : acos (cos ((1 - t) * acos c)) = (1 - t) * acos c)
        by (apply acos_cos; lra).
      split; [exact Hu|]. rewrite Hd. split; [exact Hcos|]. split.
      * apply gauge_spherical; lra.
      * rewrite Hacos. nra.
Qed.

Lemma dot_flip (r b : Quaternion) :
  dot r (quat (- qx b) (- qy b) (- qz b) (- qw b)) = - dot r b.
Proof. unfold dot; simpl; ring. Qed.

(** One call of [slerp] on normalized quaternions with a factor between 0
    and 1. *)
Lemma slerp_step (q qb : Quaternion) (t : R) :
  normalized q -> normalized qb -> 0 <= t <= 1 ->
  normalized (slerp q qb t)
  /\ remaining (slerp q qb t) qb <= (1 - t) * remaining q qb
  /\ acos (Rabs (dot (slerp q qb t) qb)) <= acos (Rabs (dot q qb)).
Proof.
  intros Hq Hb Ht. unfold remaining, slerp.
  destruct (Req_dec_T t 0) as [->|Ht0].
  { split; [exact Hq|]. split; lra. }
  destruct (Req_dec_T t 1) as [->|Ht1].
  { unfold normalized in Hb. rewrite Hb, Rabs_R1, gauge_one, acos_1.
    pose proof (acos_bound (Rabs (dot q qb))).
    split; [exact Hb|]. split; lra. }
  cbv zeta.
  assert (Hdot : qw q * qw qb + qx q * qx qb + qy q * qy qb + qz q * qz qb
                 = dot q qb) by (unfold dot; ring).
  rewrite Hdot.
  destruct (Rlt_dec (dot q qb) 0) as [Hneg|Hpos].
  - set (b := quat (- qx qb) (- qy qb) (- qz qb) (- qw qb)).
    assert (Hub : normalized b) by (unfold normalized, b, dot in *; simpl; lra).
    pose proof (slerp_arc q b t (- dot q qb) Hq Hub) as H.
    cbv zeta in H.
    destruct H as (Hu & H0 & Hg & Ha);
      [unfold b; now rewrite dot_flip|lra|exact Ht|].
    unfold b in H0, Hg, Ha. rewrite dot_flip in H0, Hg, Ha.
    split; [exact Hu|].
    rewrite (Rabs_left (dot q qb)) by assumption.
    match goal with
    | |- context [Rabs (dot ?r qb)] =>
        replace (Rabs (dot r qb)) with (- dot r qb)
          by (symmetry; rewrite <- Rabs_Ropp; apply Rabs_pos_eq; exact H0)
    end.
    split; assumption.
  - pose proof (slerp_arc q qb t (dot q qb) Hq Hb) as H.
    cbv zeta in H.
    destruct H as (Hu & H0 & Hg & Ha); [reflexivity|lra|exact Ht|].
    split; [exact Hu|].
    rewrite (Rabs_pos_eq (dot q qb)) by lra.
    rewrite Rabs_pos_eq by exact H0.
    split; assumption.
Qed.

End Rotation.

(** ** The interpolation *)

Section Interpolation.
Import THREE Polaroids.

Lemma lerp_offset (a v : Vector3) (alpha : R) :
  let a' := lerp a v alpha in
  x a' - x v = (1 - alpha) * (x a - x v)
  /\ y a' - y v = (1 - alpha) * (y a - y v)
  /\ z a' - z v = (1 - alpha) * (z a - z v).
Proof. simpl. repeat split; ring. Qed.

(** A step multiplies the distance to the target by [|1 - alpha|]. *)
Lemma lerp_distance (a v : Vector3) (alpha : R) :
  distanceTo (lerp a v alpha) v = Rabs (1 - alpha) * distanceTo a v.
Proof.
  unfold distanceTo.
  destruct (lerp_offset a v alpha) as (-> & -> & ->).
  set (S := (x a - x v) * (x a - x v) + (y a - y v) * (y a - y v)
            + (z a - z v) * (z a - z v)).
  replace ((1 - alpha) * (x a - x v) * ((1 - alpha) * (x a - x v))
           + (1 - alpha) * (y a - y v) * ((1 - alpha) * (y a - y v))
           + (1 - alpha) * (z a - z v) * ((1 - alpha) * (z a - z v)))
    with ((1 - alpha)² * S) by (unfold S, Rsqr; ring).
  assert (HS : 0 <= S).
  { pose proof (Rle_0_sqr (x a - x v)). pose proof (Rle_0_sqr (y a - y v)).
    pose proof (Rle_0_sqr (z a - z v)). unfold S, Rsqr in *. lra. }
  rewrite sqrt_mult; [|apply Rle_0_sqr|assumption].
  now rewrite sqrt_Rsqr_abs.
Qed.

Lemma distanceTo_nonneg (a v : Vector3) : 0 <= distanceTo a v.
Proof. apply sqrt_pos. Qed.

Lemma lerp_contracts (a v : Vector3) (alpha : R) :
  0 <= alpha <= 1 ->
  distanceTo (lerp a v alpha) v <= exp (- alpha) * distanceTo a v.
Proof.
  intros Ha. rewrite lerp_distance, Rabs_pos_eq by lra.
  apply Rmult_le_compat_r; [apply distanceTo_nonneg|].
  pose proof (exp_ineq1_le (- alpha)). lra.
Qed.

Lemma lerp_no_increase (a v : Vector3) (alpha : R) :
  0 <= alpha <= 2 -> distanceTo (lerp a v alpha) v <= distanceTo a v.
Proof.
  intros Ha. rewrite lerp_distance.
  rewrite <- (Rmult_1_l (distanceTo a v)) at 2.
  apply Rmult_le_compat_r; [apply distanceTo_nonneg|].
  apply Rabs_le. lra.
Qed.

Lemma lerpSpeed_values isFullScreen selectedPhoto :
  lerpSpeed isFullScreen selectedPhoto
  = if Js.truthy selectedPhoto || isFullScreen then 8 else 2.
Proof. reflexivity. Qed.

Lemma lerpSpeed_pos isFullScreen selectedPhoto :
  2 <= lerpSpeed isFullScreen selectedPhoto <= 8.
Proof.
  unfold lerpSpeed. destruct (isDetailMode selectedPhoto || isFullScreen);
    lra.
Qed.

Context `{E : Engine}.

Lemma interpolate_app g t rate (d1 d2 : list R) :
  interpolate g t rate (d1 ++ d2)
  = interpolate (interpolate g t rate d1) t rate d2.
Proof. revert g; induction d1; intros g; simpl; auto. Qed.

Lemma interpolate_bound (t : Target) (rate : R) (deltas : list R) :
  0 < rate -> steady rate deltas ->
  forall g,
    distanceTo (position (interpolate g t rate deltas)) (targetPos t)
    <= exp (- (rate * elapsed deltas))
       * distanceTo (position g) (targetPos t)
    /\ distanceTo (scale (interpolate g t rate deltas)) (targetScale t)
       <= exp (- (rate * elapsed deltas))
          * distanceTo (scale g) (targetScale t).
Proof.
  intros Hr Hs. induction Hs as [|delta deltas [Hd Ha] _ IH]; intros g.
  - simpl. rewrite Rmult_0_r, Ropp_0, exp_0. lra.
  - simpl interpolate. simpl elapsed.
    replace (- (rate * (delta + elapsed deltas)))
      with (- (rate * elapsed deltas) + - (delta * rate)) by ring.
    rewrite exp_plus.
    assert (Hal : 0 <= delta * rate <= 1) by nra.
    pose proof (exp_pos (- (rate * elapsed deltas))) as Hexp.
    destruct (IH (applyLerp g t (delta * rate))) as [Hp Hsc].
    split.
    + eapply Rle_trans; [exact Hp|]. rewrite Rmult_assoc.
      apply Rmult_le_compat_l; [lra|]. now apply lerp_contracts.
    + eapply Rle_trans; [exact Hsc|]. rewrite Rmult_assoc.
      apply Rmult_le_compat_l; [lra|]. now apply lerp_contracts.
Qed.

Lemma elapsed_nonneg rate deltas : steady rate deltas -> 0 <= elapsed deltas.
Proof.
  induction 1 as [|d ds [Hd _] _ IH]; simpl; lra.
Qed.

Lemma interpolate_no_increase (t : Target) (rate : R) (deltas : list R) :
  0 < rate -> steady rate deltas ->
  forall g,
    distanceTo (position (interpolate g t rate deltas)) (targetPos t)
    <= distanceTo (position g) (targetPos t)
    /\ distanceTo (scale (interpolate g t rate deltas)) (targetScale t)
       <= distanceTo (scale g) (targetScale t).
Proof.
  intros Hr Hs g.
  destruct (interpolate_bound t rate deltas Hr Hs g) as [Hp Hsc].
  pose proof (elapsed_nonneg _ _ Hs) as HT.
  assert (He : exp (- (rate * elapsed deltas)) <= 1).
  { rewrite <- exp_0. destruct (Req_dec (rate * elapsed deltas) 0) as [->|Hn].
    - rewrite Ropp_0. lra.
    - left. apply exp_increasing. nra. }
  pose proof (distanceTo_nonneg (position g) (targetPos t)).
  pose proof (distanceTo_nonneg (scale g) (targetScale t)).
  split; nra.
Qed.

(** The offset to the target is scaled by a factor between 0 and 1: the
    live value stays on the segment that joins it to the target, on the
    side where it started. *)
Lemma interpolate_offset (t : Target) (rate : R) (deltas : list R) :
  0 < rate -> steady rate deltas ->
  forall g, exists c,
    0 <= c <= 1
    /\ scaledOffset c (position g)
         (position (interpolate g t rate deltas)) (targetPos t)
    /\ scaledOffset c (scale g)
         (scale (interpolate g t rate deltas)) (targetScale t).
Proof.
  intros Hr Hs. induction Hs as [|delta deltas [Hd Ha] _ IH]; intros g.
  - exists 1. split; [lra|]. unfold scaledOffset. simpl.
    repeat split; ring.
  - destruct (IH (applyLerp g t (delta * rate)))
      as (c & Hc & (Hx & Hy & Hz) & (Sx & Sy & Sz)).
    assert (Hal : 0 <= delta * rate <= 1) by nra.
    exists (c * (1 - delta * rate)). split; [nra|].
    cbn [interpolate]. unfold scaledOffset.
    rewrite Hx, Hy, Hz, Sx, Sy, Sz. unfold applyLerp. cbn [position scale].
    destruct (lerp_offset (position g) (targetPos t) (delta * rate))
      as (-> & -> & ->).
    destruct (lerp_offset (scale g) (targetScale t) (delta * rate))
      as (-> & -> & ->).
    repeat split; ring.
Qed.

End Interpolation.

Section Frames.
Import THREE Polaroids.
Context `{E : Engine}.

(** C3, as the code has it.  A frame moves the position by
    [(target - position) * (delta * rate)], the factor being used as
    it is, without a bound of 1; the rotation goes through the engine's
    [slerp] and the scale through [lerp] with the same factor; [rate]
    is 8 while a selection is set or full screen is on, and 2
    otherwise.  When [rate * delta] is at most 1 the position is the
    one of the step bounded by [min(1, rate * delta)]. *)
Theorem useFrame_interpolation (g : Group) (state : FrameState)
    (delta : R) (data : PhotoData) (isFullScreen : bool)
    (selectedPhoto : option string) (aspectRatio : R) :
  let rate := if Js.truthy selectedPhoto || isFullScreen then 8 else 2 in
  let t := resolveTarget state (parent g) data isFullScreen selectedPhoto
             aspectRatio in
  let alpha := delta * rate in
  exists g',
    useFrame (Some g) state delta data isFullScreen selectedPhoto
      aspectRatio = Some g'
    /\ position g'
       = vec3 (x (position g) + (x (targetPos t) - x (position g)) * alpha)
              (y (position g) + (y (targetPos t) - y (position g)) * alpha)
              (z (position g) + (z (targetPos t) - z (position g)) * alpha)
    /\ quaternion g' = slerp (quaternion g) (targetRot t) alpha
    /\ scale g' = lerp (scale g) (targetScale t) alpha
    /\ (rate * delta <= 1 ->
        position g'
        = Spec.clampedStep (position g) (targetPos t) rate delta).
Proof.
  intros rate t alpha.
  exists (applyLerp g t alpha).
  split; [reflexivity|]. split; [reflexivity|].
  split; [reflexivity|]. split; [reflexivity|].
  intros Hle. unfold Spec.clampedStep. rewrite Rmin_right by assumption.
  unfold alpha. rewrite (Rmult_comm rate delta). reflexivity.
Qed.

(** The interpolation calls towards a fixed target, for factors of at
    most 1: the distances shrink with the elapsed time and fall below
    any positive bound. *)
Lemma interpolate_contracts (g : Group) (t : Target)
    (isFullScreen : bool) (selectedPhoto : option string) :
  let rate := lerpSpeed isFullScreen selectedPhoto in
  let dPos := fun g' => distanceTo (position g') (targetPos t) in
  let dScale := fun g' => distanceTo (scale g') (targetScale t) in
  (forall deltas, steady rate deltas ->
     dPos (interpolate g t rate deltas)
       <= exp (- (rate * elapsed deltas)) * dPos g
     /\ dScale (interpolate g t rate deltas)
       <= exp (- (rate * elapsed deltas)) * dScale g
     /\ (forall d1 d2, deltas = d1 ++ d2 ->
          dPos (interpolate g t rate deltas)
            <= dPos (interpolate g t rate d1)
          /\ dScale (interpolate g t rate deltas)
            <= dScale (interpolate g t rate d1))
     /\ exists c, 0 <= c <= 1
          /\ scaledOffset c (position g)
               (position (interpolate g t rate deltas)) (targetPos t)
          /\ scaledOffset c (scale g)
               (scale (interpolate g t rate deltas)) (targetScale t))
  /\ (forall eps, 0 < eps ->
      exists T, forall deltas,
        steady rate deltas -> T <= elapsed deltas ->
        dPos (interpolate g t rate deltas) < eps
        /\ dScale (interpolate g t rate deltas) < eps).
Proof.
  intros rate dPos dScale.
  assert (Hr : 0 < rate)
    by (pose proof (lerpSpeed_pos isFullScreen selectedPhoto);
        unfold rate; lra).
  split.
  - intros deltas Hs.
    destruct (interpolate_bound t rate deltas Hr Hs g) as [Hp Hsc].
    split; [exact Hp|]. split; [exact Hsc|].
    split; [|now apply interpolate_offset].
    intros d1 d2 ->. rewrite interpolate_app.
    apply Forall_app in Hs. destruct Hs as [_ Hs2].
    apply (interpolate_no_increase t rate d2 Hr Hs2).
  - intros eps Heps.
    set (d0 := dPos g + dScale g).
    assert (Hd0 : 0 <= dPos g /\ 0 <= dScale g)
      by (split; apply distanceTo_nonneg).
    exists (d0 / (rate * eps) + 1).
    intros deltas Hs HT.
    destruct (interpolate_bound t rate deltas Hr Hs g) as [Hp Hsc].
    fold (dPos (interpolate g t rate deltas)) in Hp.
    fold (dScale (interpolate g t rate deltas)) in Hsc.
    fold (dPos g) in Hp. fold (dScale g) in Hsc.
    set (T := elapsed deltas) in *.
    assert (Hre : 0 < rate * eps) by nra.
    assert (Hq : 0 <= d0 / (rate * eps)).
    { apply Rmult_le_pos; [unfold d0; lra|].
      left. now apply Rinv_0_lt_compat. }
    assert (HTpos : 0 < T) by lra.
    assert (Hd : d0 < eps * (rate * T)).
    { assert (d0 = d0 / (rate * eps) * (rate * eps))
        by (field; lra).
      nra. }
    (* exp (- rate T) * (1 + rate T) <= 1 *)
    pose proof (exp_ineq1_le (rate * T)) as Hexp.
    pose proof (exp_pos (- (rate * T))) as Hpos.
    assert (Hinv : exp (- (rate * T)) * exp (rate * T) = 1).
    { rewrite <- exp_plus. replace (- (rate * T) + rate * T) with 0 by ring.
      apply exp_0. }
    assert (Hsmall : exp (- (rate * T)) * (rate * T) < 1) by nra.
    assert (Hall : exp (- (rate * T)) * d0 < eps).
    { apply Rle_lt_trans with (exp (- (rate * T)) * (eps * (rate * T))).
      - apply Rmult_le_compat_l; lra.
      - replace (exp (- (rate * T)) * (eps * (rate * T)))
          with (eps * (exp (- (rate * T)) * (rate * T))) by ring.
        nra. }
    unfold d0 in Hall.
    split.
    + apply Rle_lt_trans with (1 := Hp).
      apply Rle_lt_trans with (2 := Hall). nra.
    + apply Rle_lt_trans with (1 := Hsc).
      apply Rle_lt_trans with (2 := Hall). nra.
Qed.

(** While the target stays the same, the frames are the interpolation
    calls towards it. *)
Lemma runFrames_interpolate (t : Target) (data : PhotoData)
    (isFullScreen : bool) (selectedPhoto : option string)
    (aspectRatio : R) (frames : list (FrameState * R)) :
  forall g,
    constantTarget t (parent g) frames data isFullScreen selectedPhoto
      aspectRatio ->
    runFrames (Some g) frames data isFullScreen selectedPhoto aspectRatio
    = Some (interpolate g t (lerpSpeed isFullScreen selectedPhoto)
              (map snd frames)).
Proof.
  induction frames as [|[state delta] frames IH]; intros g Hc;
    [reflexivity|].
  apply Forall_cons_iff in Hc. destruct Hc as [Ht Hrest].
  cbn [fst] in Ht.
  cbn [runFrames useFrame map snd interpolate]. rewrite Ht.
  apply IH. exact Hrest.
Qed.

(** The slerp calls towards a fixed orientation, for factors of at
    most 1 and an engine whose [slerp] is the one of three.js: the
    live orientation stays normalized, what remains of the way shrinks
    with the elapsed time, and the angle to the target never grows. *)
Lemma interpolate_rotation (t : Target) (rate : R) (deltas : list R) :
  (forall q qb s, slerp q qb s = Slerp.slerp q qb s) ->
  Slerp.normalized (targetRot t) ->
  0 < rate -> steady rate deltas ->
  forall g,
    Slerp.normalized (quaternion g) ->
    Slerp.normalized (quaternion (interpolate g t rate deltas))
    /\ Slerp.remaining (quaternion (interpolate g t rate deltas))
         (targetRot t)
       <= exp (- (rate * elapsed deltas))
          * Slerp.remaining (quaternion g) (targetRot t)
    /\ Slerp.angleTo (quaternion (interpolate g t rate deltas))
         (targetRot t)
       <= Slerp.angleTo (quaternion g) (targetRot t).
Proof.
  intros Hslerp Ht Hr Hs.
  induction Hs as [|delta deltas [Hd Ha] _ IH]; intros g Hg.
  - simpl. rewrite Rmult_0_r, Ropp_0, exp_0. split; [exact Hg|]. lra.
  - assert (Hal : 0 <= delta * rate <= 1) by nra.
    destruct (slerp_step (quaternion g) (targetRot t) (delta * rate)
                Hg Ht Hal) as (Hu & Hrem & Hang).
    set (g1 := applyLerp g t (delta * rate)).
    assert (Hq1 : quaternion g1
                  = Slerp.slerp (quaternion g) (targetRot t) (delta * rate))
      by (unfold g1, applyLerp; cbn [quaternion]; apply Hslerp).
    rewrite <- Hq1 in Hu, Hrem, Hang.
    destruct (IH g1 Hu) as (Hn & Hb & Hmono).
    cbn [interpolate]. fold g1. simpl elapsed.
    split; [exact Hn|]. split.
    + replace (- (rate * (delta + elapsed deltas)))
        with (- (rate * elapsed deltas) + - (delta * rate)) by ring.
      rewrite exp_plus.
      pose proof (exp_pos (- (rate * elapsed deltas))) as Hexp.
      eapply Rle_trans; [exact Hb|]. rewrite Rmult_assoc.
      apply Rmult_le_compat_l; [lra|].
      eapply Rle_trans; [exact Hrem|].
      apply Rmult_le_compat_r.
      * pose proof (remaining_half_angle _ _ Hg Ht) as [Hlow _].
        pose proof (acos_bound (Rabs (Slerp.dot (quaternion g) (targetRot t)))).
        pose proof sqrt_1_EPSILON. cbv zeta in Hlow. nra.
      * pose proof (exp_ineq1_le (- (delta * rate))). lra.
    + eapply Rle_trans; [exact Hmono|].
      rewrite (angleTo_half_angle _ _ Hu Ht), (angleTo_half_angle _ _ Hg Ht).
      lra.
Qed.

(** An exponentially decaying bound falls below any positive [eps]
    once enough time has elapsed. *)
Lemma exp_decay_below (rate d0 eps T : R) :
  0 < rate -> 0 <= d0 -> 0 < eps -> d0 / (rate * eps) + 1 <= T ->
  exp (- (rate * T)) * d0 < eps.
Proof.
  intros Hr Hd0 Heps HT.
  assert (Hre : 0 < rate * eps) by nra.
  assert (Hq : 0 <= d0 / (rate * eps)).
  { apply Rmult_le_pos; [lra|]. left. now apply Rinv_0_lt_compat. }
  assert (HTpos : 0 < T) by lra.
  assert (Hd : d0 < eps * (rate * T)).
  { assert (d0 = d0 / (rate * eps) * (rate * eps)) by (field; lra).
    nra. }
  pose proof (exp_ineq1_le (rate * T)) as Hexp.
  pose proof (exp_pos (- (rate * T))) as Hpos.
  assert (Hinv : exp (- (rate * T)) * exp (rate * T) = 1).
  { rewrite <- exp_plus. replace (- (rate * T) + rate * T) with 0 by ring.
    apply exp_0. }
  assert (Hsmall : exp (- (rate * T)) * (rate * T) < 1) by nra.
  apply Rle_lt_trans with (exp (- (rate * T)) * (eps * (rate * T))).
  - apply Rmult_le_compat_l; lra.
  - replace (exp (- (rate * T)) * (eps * (rate * T)))
      with (eps * (exp (- (rate * T)) * (rate * T))) by ring.
    nra.
Qed.

(** C8, as the code has it.  The live pose of an item is its position,
    its rotation and its scale; the distance of a rotation to its
    target is the angle between the two ([angleTo]), rotations being
    normalized quaternions and [slerp] the one of three.js.  While the
    target pose stays the same and every frame has a positive delta
    with [delta * rate] at most 1, none of the three distances grows
    from one frame to a later one; position and scale are within
    [exp (- rate * elapsed time)] times their initial distance and
    never pass their targets; the rotation is within the same bound
    divided by [sqrt (1 - EPSILON)]; and all three distances fall below
    any positive bound once enough time has elapsed. *)
Theorem useFrame_converges (g : Group) (t : Target) (data : PhotoData)
    (isFullScreen : bool) (selectedPhoto : option string)
    (aspectRatio : R) :
  (forall q qb s, slerp q qb s = Slerp.slerp q qb s) ->
  Slerp.normalized (quaternion g) ->
  Slerp.normalized (targetRot t) ->
  let rate := lerpSpeed isFullScreen selectedPhoto in
  let dPos := fun g' => distanceTo (position g') (targetPos t) in
  let dRot := fun g' => Slerp.angleTo (quaternion g') (targetRot t) in
  let dScale := fun g' => distanceTo (scale g') (targetScale t) in
  let run := fun frames =>
    runFrames (Some g) frames data isFullScreen selectedPhoto aspectRatio in
  let valid := fun frames =>
    constantTarget t (parent g) frames data isFullScreen selectedPhoto
      aspectRatio
    /\ steady rate (map snd frames) in
  (forall frames, valid frames ->
     exists g',
       run frames = Some g'
       /\ dPos g' <= exp (- (rate * elapsed (map snd frames))) * dPos g
       /\ dRot g' <= exp (- (rate * elapsed (map snd frames))) * dRot g
                     / sqrt (1 - Slerp.EPSILON)
       /\ dScale g' <= exp (- (rate * elapsed (map snd frames))) * dScale g
       /\ (exists c, 0 <= c <= 1
            /\ scaledOffset c (position g) (position g') (targetPos t)
            /\ scaledOffset c (scale g) (scale g') (targetScale t))
       /\ (forall earlier later, frames = earlier ++ later ->
            exists g1, run earlier = Some g1
                       /\ dPos g' <= dPos g1 /\ dRot g' <= dRot g1
                       /\ dScale g' <= dScale g1))
  /\ (forall eps, 0 < eps ->
      exists T, forall frames,
        valid frames -> T <= elapsed (map snd frames) ->
        exists g', run frames = Some g'
                   /\ dPos g' < eps /\ dRot g' < eps /\ dScale g' < eps).
Proof.
  intros Hslerp Hg Ht rate dPos dRot dScale run valid.
  assert (Hr : 0 < rate)
    by (pose proof (lerpSpeed_pos isFullScreen selectedPhoto);
        unfold rate; lra).
  pose proof sqrt_1_EPSILON as Hsigma.
  assert (Hrot : forall deltas, steady rate deltas ->
            dRot (interpolate g t rate deltas)
            <= exp (- (rate * elapsed deltas)) * dRot g
               / sqrt (1 - Slerp.EPSILON)).
  { intros deltas Hs.
    destruct (interpolate_rotation t rate deltas Hslerp Ht Hr Hs g Hg)
      as (Hn & Hb & _).
    pose proof (remaining_half_angle _ _ Hn Ht) as [Hlow _].
    pose proof (remaining_half_angle _ _ Hg Ht) as [_ Hup].
    cbv zeta in Hlow, Hup.
    unfold dRot.
    rewrite (angleTo_half_angle _ _ Hn Ht), (angleTo_half_angle _ _ Hg Ht).
    pose proof (exp_pos (- (rate * elapsed deltas))) as Hexp.
    apply Rmult_le_reg_r with (sqrt (1 - Slerp.EPSILON)); [lra|].
    unfold Rdiv. rewrite (Rmult_assoc _ (/ _)), Rinv_l, Rmult_1_r by lra.
    assert (Hchain :
              Slerp.remaining (quaternion (interpolate g t rate deltas))
                (targetRot t)
              <= exp (- (rate * elapsed deltas))
                 * acos (Rabs (Slerp.dot (quaternion g) (targetRot t)))).
    { eapply Rle_trans; [exact Hb|].
      apply Rmult_le_compat_l; lra. }
    lra. }
  destruct (interpolate_contracts g t isFullScreen selectedPhoto)
    as [Hbound _].
  split.
  - intros frames [Hc Hs].
    destruct (Hbound _ Hs) as (Hp & Hsc & Hmono & Hoff).
    exists (interpolate g t rate (map snd frames)).
    split; [now apply runFrames_interpolate|].
    split; [exact Hp|]. split; [now apply Hrot|]. split; [exact Hsc|].
    split; [exact Hoff|].
    intros earlier later ->.
    apply Forall_app in Hc. destruct Hc as [Hc1 _].
    exists (interpolate g t rate (map snd earlier)).
    split; [now apply runFrames_interpolate|].
    destruct (Hmono (map snd earlier) (map snd later) (map_app _ _ _))
      as [Hp1 Hs1].
    split; [exact Hp1|]. split; [|exact Hs1].
    rewrite map_app in Hs. apply Forall_app in Hs. destruct Hs as [Hs1' Hs2'].
    destruct (interpolate_rotation t rate (map snd earlier) Hslerp Ht Hr
                Hs1' g Hg) as (Hn1 & _ & _).
    destruct (interpolate_rotation t rate (map snd later) Hslerp Ht Hr
                Hs2' _ Hn1) as (_ & _ & Hle).
    unfold dRot. rewrite map_app, interpolate_app. exact Hle.
  - intros eps Heps.
    assert (Hd0 : 0 <= dPos g /\ 0 <= dScale g)
      by (split; apply distanceTo_nonneg).
    assert (HdR : 0 <= dRot g).
    { unfold dRot. rewrite (angleTo_half_angle _ _ Hg Ht).
      pose proof (acos_bound
                    (Rabs (Slerp.dot (quaternion g) (targetRot t)))).
      lra. }
    assert (HdR' : 0 <= dRot g / sqrt (1 - Slerp.EPSILON)).
    { apply Rmult_le_pos; [exact HdR|].
      left. apply Rinv_0_lt_compat. lra. }
    set (d0 := dPos g + dScale g + dRot g / sqrt (1 - Slerp.EPSILON)).
    exists (d0 / (rate * eps) + 1).
    intros frames [Hc Hs] HT.
    destruct (Hbound _ Hs) as (Hp & Hsc & _).
    pose proof (Hrot _ Hs) as Hro.
    exists (interpolate g t rate (map snd frames)).
    split; [now apply runFrames_interpolate|].
    assert (Hall : exp (- (rate * elapsed (map snd frames))) * d0 < eps)
      by (apply exp_decay_below;
          [exact Hr|unfold d0; lra|exact Heps|exact HT]).
    pose proof (exp_pos (- (rate * elapsed (map snd frames)))) as Hexp.
    unfold d0 in Hall.
    set (e := exp (- (rate * elapsed (map snd frames)))) in *.
    change (dPos (interpolate g t rate (map snd frames)) <= e * dPos g)
      in Hp.
    change (dScale (interpolate g t rate (map snd frames)) <= e * dScale g)
      in Hsc.
    assert (Hro' : dRot (interpolate g t rate (map snd frames))
                   <= e * (dRot g / sqrt (1 - Slerp.EPSILON)))
      by (unfold Rdiv in *; rewrite <- Rmult_assoc; exact Hro).
    assert (H1 : 0 <= e * dPos g) by (apply Rmult_le_pos; lra).
    assert (H2 : 0 <= e * dScale g) by (apply Rmult_le_pos; lra).
    assert (H3 : 0 <= e * (dRot g / sqrt (1 - Slerp.EPSILON)))
      by (apply Rmult_le_pos; lra).
    rewrite !Rmult_plus_distr_l in Hall.
    split; [lra|]. split; lra.
Qed.

End Frames.

(** *** The interpolation on concrete frames

    The selected photo "a.png", its node at the origin of the scene
    group, the camera of the evaluation engine: the target position is
    [(0, 5, 5)] and the rate is 8. *)

Section ConcreteFrames.
Import THREE Polaroids UnrotatedEngine.

Lemma concrete_target : targetPos targetA = vec3 0 5 5.
Proof.
  unfold targetA, resolveTarget, selectedTarget. simpl.
  unfold add, multiplyScalar. simpl. f_equal; lra.
Qed.

(** C3 fails as stated: after a frame of a quarter of a second the
    code has moved the position by twice the offset to the target,
    past [(0, 5, 5)] to [(0, 10, 10)]; the step bounded by
    [min(1, rate * delta)] would stop on the target. *)
Lemma useFrame_step_not_clamped :
  exists g',
    useFrame (Some nodeA) (state 0) 0.25 photoA false selectedA 1 = Some g'
    /\ position g' = vec3 0 10 10
    /\ Spec.clampedStep (position nodeA) (targetPos targetA) 8 0.25
       = vec3 0 5 5
    /\ position g'
       <> Spec.clampedStep (position nodeA) (targetPos targetA) 8 0.25.
Proof.
  eexists. split; [reflexivity|].
  assert (Hp : position
                 (applyLerp nodeA targetA (0.25 * lerpSpeed false selectedA))
               = vec3 0 10 10).
  { unfold applyLerp, lerp. cbn [position].
    rewrite concrete_target. unfold lerpSpeed. simpl. f_equal; lra. }
  assert (Hc : Spec.clampedStep (position nodeA) (targetPos targetA) 8 0.25
               = vec3 0 5 5).
  { unfold Spec.clampedStep. rewrite concrete_target.
    rewrite Rmin_left by lra. simpl. f_equal; lra. }
  split; [exact Hp|]. split; [exact Hc|].
  fold targetA. rewrite Hp, Hc. intros H. inversion H. lra.
Qed.

(** C3 on a frame of a sixteenth of a second: the factor is one half,
    the code and the bounded step agree. *)
Lemma useFrame_interpolation_short_frame :
  exists g',
    useFrame (Some nodeA) (state 0) 0.0625 photoA false selectedA 1
    = Some g'
    /\ position g'
       = Spec.clampedStep (position nodeA) (targetPos targetA) 8 0.0625.
Proof.
  destruct (useFrame_interpolation nodeA (state 0) 0.0625 photoA false
              selectedA 1) as (g' & Hg & _ & _ & _ & Hc).
  exists g'. split; [exact Hg|].
  apply Hc. simpl. lra.
Defined.

(** C8 fails as stated: a single frame of half a second, with a
    positive delta and the target of the frame as constant target,
    takes the position from distance [sqrt 50] of that target to three
    times that distance. *)
Lemma useFrame_long_frame_diverges :
  exists after,
    runFrames (Some nodeA) [(state 0, 0.5)] photoA false selectedA 1
    = Some after
    /\ constantTarget targetA (parent nodeA) [(state 0, 0.5)] photoA false
         selectedA 1
    /\ 0 < 0.5
    /\ distanceTo (position nodeA) (targetPos targetA)
       < distanceTo (position after) (targetPos targetA)
    /\ distanceTo (position after) (targetPos targetA)
       = 3 * distanceTo (position nodeA) (targetPos targetA).
Proof.
  eexists. split; [reflexivity|].
  split; [repeat constructor|]. split; [lra|].
  assert (Hd : 0 < distanceTo (position nodeA) (targetPos targetA)).
  { rewrite concrete_target. unfold distanceTo. simpl.
    apply sqrt_lt_R0. lra. }
  fold targetA.
  assert (H3 : distanceTo
                 (position
                    (applyLerp nodeA targetA (0.5 * lerpSpeed false selectedA)))
                 (targetPos targetA)
               = 3 * distanceTo (position nodeA) (targetPos targetA)).
  { unfold applyLerp. cbn [position].
    rewrite lerp_distance. f_equal.
    replace (1 - 0.5 * lerpSpeed false selectedA) with (-3)
      by (unfold lerpSpeed; simpl; lra).
    rewrite Rabs_left; lra. }
  split; [rewrite H3; lra|exact H3].
Qed.

End ConcreteFrames.

(** *** The interpolation of a rotation on concrete frames

    The node of "a.png" starts half a turn away from its target
    orientation, the largest angle there is. *)

Section ConcreteRotation.
Import THREE Polaroids SlerpEngine.

(** C8 on two frames of a tenth of a second: the factor is 0.8 on
    each, the slerp calls follow the arc. *)
Lemma useFrame_converges_two_frames :
  Slerp.angleTo (quaternion nodeTurned) (targetRot targetTurned) = PI
  /\ exists g',
       runFrames (Some nodeTurned) [(state 0, 0.1); (state 0, 0.1)]
         UnrotatedEngine.photoA false UnrotatedEngine.selectedA 1 = Some g'
       /\ distanceTo (position g') (targetPos targetTurned)
          <= exp (- (8 * 0.2))
             * distanceTo (position nodeTurned) (targetPos targetTurned)
       /\ Slerp.angleTo (quaternion g') (targetRot targetTurned)
          <= exp (- (8 * 0.2)) * PI / sqrt (1 - Slerp.EPSILON).
Proof.
  assert (Hg : Slerp.normalized (quaternion nodeTurned))
    by (unfold Slerp.normalized, Slerp.dot; simpl; lra).
  assert (Ht : Slerp.normalized (targetRot targetTurned))
    by (unfold Slerp.normalized, Slerp.dot; simpl; lra).
  assert (Hpi : Slerp.angleTo (quaternion nodeTurned)
                  (targetRot targetTurned) = PI).
  { rewrite (angleTo_half_angle _ _ Hg Ht).
    replace (Slerp.dot (quaternion nodeTurned) (targetRot targetTurned))
      with 0 by (unfold Slerp.dot; simpl; lra).
    rewrite Rabs_R0, acos_0. lra. }
  split; [exact Hpi|].
  destruct (useFrame_converges nodeTurned targetTurned
              UnrotatedEngine.photoA false UnrotatedEngine.selectedA 1)
    as [Hb _]; [reflexivity|exact Hg|exact Ht|].
  destruct (Hb [(state 0, 0.1); (state 0, 0.1)])
    as (g' & Hrun & Hp & Hro & _).
  - split.
    + repeat constructor.
    + unfold steady, lerpSpeed. simpl. repeat constructor; lra.
  - exists g'. split; [exact Hrun|].
    rewrite Hpi in Hro.
    unfold lerpSpeed, elapsed in Hp, Hro. simpl in Hp, Hro.
    replace (8 * (0.1 + (0.1 + 0))) with (8 * 0.2) in Hp, Hro by lra.
    split; [exact Hp|exact Hro].
Defined.

End ConcreteRotation.

(** ** The snow field *)

Section SnowField.
Import THREE Snow.

Lemma floor_bounds (r : R) : floor r <= r < floor r + 1.
Proof. unfold floor. pose proof (base_Int_part r). lra. Qed.

(** For a positive divisor, [mod] lands in [[0, b)]. *)
Lemma mod_range (a b : R) : 0 < b -> 0 <= mod_ a b < b.
Proof.
  intros Hb. unfold mod_.
  pose proof (floor_bounds (a / b)) as [Hlo Hhi].
  assert (Ha : a = a / b * b) by (field; lra).
  set (q := a / b) in *. set (f := floor q) in *.
  rewrite Ha. split; nra.
Qed.

(** ... and it is the only such value that differs from [a] by a
    whole number of [b]. *)
Lemma mod_unique (a b : R) (k : Z) :
  0 < b -> 0 <= a - b * IZR k < b -> mod_ a b = a - b * IZR k.
Proof.
  intros Hb [Hlo Hhi]. unfold mod_, floor.
  rewrite <- (Int_part_spec (a / b) k); [reflexivity|].
  assert (Ha : a = a / b * b) by (field; lra).
  set (q := a / b) in *. rewrite Ha in Hlo, Hhi. split; nra.
Qed.

Lemma smoothstep_below (edge0 edge1 v : R) :
  edge0 < edge1 -> v <= edge0 -> smoothstep edge0 edge1 v = 0.
Proof.
  intros He Hv. unfold smoothstep, clamp.
  assert (Hq : (v - edge0) / (edge1 - edge0) <= 0).
  { unfold Rdiv. assert (0 < / (edge1 - edge0))
      by (apply Rinv_0_lt_compat; lra).
    nra. }
  rewrite Rmax_right by assumption. rewrite Rmin_left by lra. ring.
Qed.

(** C4, as the code has it.  For a positive height the wrapped
    vertical position differs from the unwrapped one by a whole number
    of heights and lies within the vertical extent
    [[-height/2, height/2]]; the horizontal position stays within 0.5
    of the initial one on both axes; and a particle that stands on the
    lower bound is fully transparent.  The horizontal displacement is
    computed from the wrapped height. *)
Theorem snow_wrap (uTime uHeight uSpeed : R) (p : Particle) :
  0 < uHeight ->
  let v := vertexPos uTime uHeight uSpeed p in
  let newY := y (position p) - uTime * uSpeed * (0.5 + aRandom p * 0.5) in
  let bottom := - uHeight / 2 in
  y v = mod_ (newY - bottom) uHeight + bottom
  /\ - uHeight / 2 <= y v <= uHeight / 2
  /\ (exists k : Z, y v = newY + uHeight * IZR k)
  /\ x v = x (position p)
           + sin (uTime * 0.5 + y v * 0.5 + aRandom p * 10) * 0.5
  /\ z v = z (position p)
           + cos (uTime * 0.3 + y v * 0.5 + aRandom p * 10) * 0.5
  /\ Rabs (x v - x (position p)) <= 0.5
  /\ Rabs (z v - z (position p)) <= 0.5
  /\ (y v = bottom -> vAlpha uTime uHeight uSpeed p = 0).
Proof.
  intros Hh v newY bottom.
  assert (Hy : y v = mod_ (newY - bottom) uHeight + bottom).
  { unfold v, vertexPos, wrappedY. simpl. unfold newY, bottom.
    replace 2.0 with 2 by lra. reflexivity. }
  pose proof (mod_range (newY - bottom) uHeight Hh) as Hm.
  split; [exact Hy|].
  split.
  { rewrite Hy. generalize dependent (mod_ (newY - bottom) uHeight).
    intros m _ Hm. unfold bottom. lra. }
  split.
  { exists (- Int_part ((newY - bottom) / uHeight))%Z.
    rewrite Hy. unfold mod_, floor. rewrite opp_IZR. ring. }
  split.
  { unfold v, vertexPos. simpl. replace 10.0 with 10 by lra. reflexivity. }
  split.
  { unfold v, vertexPos. simpl. replace 10.0 with 10 by lra. reflexivity. }
  split.
  { unfold v, vertexPos. simpl.
    match goal with |- Rabs (_ + sin ?a * _ - _) <= _ =>
      pose proof (SIN_bound a); apply Rabs_le; lra end. }
  split.
  { unfold v, vertexPos. simpl.
    match goal with |- Rabs (_ + cos ?a * _ - _) <= _ =>
      pose proof (COS_bound a); apply Rabs_le; lra end. }
  intros Hb. unfold vAlpha.
  change (wrappedY uTime uHeight uSpeed p) with (y v).
  rewrite Hb. unfold bottom. replace 2.0 with 2 by lra.
  replace ((- uHeight / 2 - - uHeight / 2) / uHeight) with 0
    by (field; lra).
  rewrite (smoothstep_below 0.0 0.1 0) by lra. ring.
Qed.

(** *** The horizontal jump at a wrap

    The particle [centre] of the default field falls one unit per
    second and reaches the lower bound after 20 seconds. *)

Lemma mod_congr (a a' b : R) : a = a' -> mod_ a b = mod_ a' b.
Proof. now intros ->. Qed.

Lemma centre_wrappedY (t : R) (k : Z) :
  0 <= 20 - t - 40 * IZR k < 40 ->
  wrappedY t defaultHeight uSpeedValue centre = - t - 40 * IZR k.
Proof.
  intros Hk. unfold wrappedY, centre, defaultHeight, uSpeedValue.
  cbn [position aRandom y].
  rewrite (mod_congr _ (20 - t)) by lra.
  rewrite (mod_unique (20 - t) 40 k) by lra. lra.
Qed.

Lemma sin_20_pos : 0 < sin 20.
Proof.
  pose proof PI_bounds as HPI.
  replace (sin 20) with (sin (20 - 6 * PI)).
  - apply sin_gt_0; lra.
  - rewrite <- (sin_period (20 - 6 * PI) 3). f_equal. simpl. lra.
Qed.

(** Its horizontal position on the x axis, as a function of time. *)
Lemma centre_x_at_wrap :
  x (vertexPos 20 defaultHeight uSpeedValue centre) = 0.
Proof.
  unfold vertexPos. rewrite (centre_wrappedY 20 0) by lra.
  unfold centre. cbn [position aRandom x].
  match goal with |- _ + sin ?a * _ = _ =>
    replace a with 0 by lra end.
  rewrite sin_0. lra.
Qed.

Lemma centre_x_after_wrap (t : R) :
  20 < t < 60 ->
  x (vertexPos t defaultHeight uSpeedValue centre) = sin 20 * 0.5.
Proof.
  intros Ht. unfold vertexPos. rewrite (centre_wrappedY t (-1)) by lra.
  unfold centre. cbn [position aRandom x].
  match goal with |- _ + sin ?a * _ = _ =>
    replace a with 20 by lra end.
  lra.
Qed.

Lemma centre_y_at_wrap :
  y (vertexPos 20 defaultHeight uSpeedValue centre) = -20.
Proof.
  unfold vertexPos. cbn [y]. rewrite (centre_wrappedY 20 0) by lra. lra.
Qed.

Lemma centre_y_after_wrap (t : R) :
  20 < t < 60 ->
  y (vertexPos t defaultHeight uSpeedValue centre) = 40 - t.
Proof.
  intros Ht. unfold vertexPos. cbn [y].
  rewrite (centre_wrappedY t (-1)) by lra. lra.
Qed.

(** C4 for [centre] ten seconds after it has reached the lower bound:
    the unwrapped height is 30 below the start, under the extent, and
    the particle is drawn one height above it. *)
Lemma snow_wrap_after_wrap :
  let v := vertexPos 30 defaultHeight uSpeedValue centre in
  y (position centre) - 30 * uSpeedValue * (0.5 + aRandom centre * 0.5)
  = -30
  /\ y v = 10
  /\ - defaultHeight / 2 <= y v <= defaultHeight / 2
  /\ Rabs (x v - x (position centre)) <= 0.5.
Proof.
  intros v.
  destruct (snow_wrap 30 defaultHeight uSpeedValue centre)
    as (_ & Hr & _ & _ & _ & Hx & _).
  - unfold defaultHeight. lra.
  - split; [unfold centre, uSpeedValue; simpl; lra|].
    split; [unfold v; rewrite centre_y_after_wrap by lra; lra|].
    split; [exact Hr|exact Hx].
Defined.

(** C4 fails as stated: [centre] stands on the lower bound at time 20
    with no horizontal displacement, and at every later time of the
    next fall, however close, it is at the top with the displacement
    [sin 20 * 0.5]: its x position is not continuous in time at the
    wrap. *)
Lemma snow_wind_jumps_at_wrap :
  let px := fun t => x (vertexPos t defaultHeight uSpeedValue centre) in
  let py := fun t => y (vertexPos t defaultHeight uSpeedValue centre) in
  py 20 = -20
  /\ (forall t, 20 < t < 60 -> py t = 40 - t)
  /\ px 20 = 0
  /\ (forall t, 20 < t < 60 -> px t = sin 20 * 0.5)
  /\ 0 < sin 20 * 0.5
  /\ ~ continuity_pt px 20.
Proof.
  intros px py. pose proof sin_20_pos as Hs.
  split; [apply centre_y_at_wrap|].
  split; [apply centre_y_after_wrap|].
  split; [apply centre_x_at_wrap|].
  split; [apply centre_x_after_wrap|].
  split; [lra|].
  intros Hc.
  destruct (Hc (sin 20 * 0.5)) as (alp & Halp & Hlim); [lra|].
  set (t := 20 + Rmin (alp / 2) 1).
  assert (Hmin : 0 < Rmin (alp / 2) 1 <= 1 /\ Rmin (alp / 2) 1 < alp).
  { pose proof (Rmin_l (alp / 2) 1). pose proof (Rmin_r (alp / 2) 1).
    assert (0 < Rmin (alp / 2) 1) by (apply Rmin_glb_lt; lra).
    lra. }
  specialize (Hlim t).
  unfold px in Hlim.
  rewrite centre_x_at_wrap, centre_x_after_wrap in Hlim
    by (unfold t; lra).
  simpl in Hlim. unfold Rdist in Hlim.
  assert (Hd : Rabs (sin 20 * 0.5 - 0) < sin 20 * 0.5).
  { apply Hlim. split.
    - split; [exact I|]. unfold t. lra.
    - unfold t. rewrite Rabs_pos_eq; lra. }
  rewrite Rabs_pos_eq in Hd; lra.
Qed.

End SnowField.

(** ** The earlier revision

    Where the two revisions share their text they compute the same
    thing: the formation target, the place and orientation of the
    selected item, the factor and the position step of a frame.  The
    earlier revision has no scale and another spiral radius
    ([earlier_spiralRadius_differs]). *)

Section Earlier.
Import THREE.
Context `{E : Engine}.

Lemma earlier_formation_same state parent data aspectRatio :
  PolaroidsEarlier.resolveTarget state parent data false None
  = (Polaroids.targetPos
       (Polaroids.resolveTarget state parent data false None aspectRatio),
     Polaroids.targetRot
       (Polaroids.resolveTarget state parent data false None aspectRatio)).
Proof. reflexivity. Qed.

Lemma earlier_selected_same state parent data isFullScreen aspectRatio :
  let sel := Some (Polaroids.url data) in
  PolaroidsEarlier.resolveTarget state parent data isFullScreen sel
  = (Polaroids.targetPos
       (Polaroids.resolveTarget state parent data isFullScreen sel
          aspectRatio),
     Polaroids.targetRot
       (Polaroids.resolveTarget state parent data isFullScreen sel
          aspectRatio)).
Proof.
  intros sel. unfold PolaroidsEarlier.resolveTarget, sel.
  rewrite resolveTarget_selected, isSelected_own_url. reflexivity.
Qed.

Lemma earlier_useFrame_step (g : PolaroidsEarlier.Group) state delta data
    isFullScreen selectedPhoto :
  let t := PolaroidsEarlier.resolveTarget state (PolaroidsEarlier.parent g)
             data isFullScreen selectedPhoto in
  let alpha := delta * Polaroids.lerpSpeed isFullScreen selectedPhoto in
  PolaroidsEarlier.useFrame (Some g) state delta data isFullScreen
    selectedPhoto
  = Some {| PolaroidsEarlier.parent := PolaroidsEarlier.parent g;
            PolaroidsEarlier.position :=
              lerp (PolaroidsEarlier.position g) (fst t) alpha;
            PolaroidsEarlier.quaternion :=
              slerp (PolaroidsEarlier.quaternion g) (snd t) alpha |}.
Proof. reflexivity. Qed.

End Earlier.

(* ================================================================== *)
(** * Part III: further properties of the components                   *)
(* ================================================================== *)

(** ** The item list *)

Section ItemList.
Import THREE Polaroids.

Lemma photoLoop_urls random count (rest : list string) :
  forall i, map url (photoLoop random count i rest) = rest.
Proof.
  induction rest as [|u rest IH]; intros i; simpl; [|rewrite IH]; auto.
Qed.

Lemma photoLoop_ids random count (rest : list string) :
  forall i, map id (photoLoop random count i rest)
            = seq i (List.length rest).
Proof.
  induction rest as [|u rest IH]; intros i; simpl; [|rewrite IH]; auto.
Qed.

(** X1.  The item list has one item per uploaded photo, in upload
    order: the urls of the items are the uploaded list itself and the
    ids are the positions 0, 1, 2, ...; without photos there is no
    item. *)
Theorem photoData_urls_ids (random : nat -> R)
    (uploadedPhotos : list string) :
  map url (photoData random uploadedPhotos) = uploadedPhotos
  /\ map id (photoData random uploadedPhotos)
     = seq 0 (List.length uploadedPhotos)
  /\ List.length (photoData random uploadedPhotos)
     = List.length uploadedPhotos
  /\ (photoData random uploadedPhotos = [] <-> uploadedPhotos = []).
Proof.
  assert (Hu : map url (photoData random uploadedPhotos) = uploadedPhotos).
  { unfold photoData. destruct uploadedPhotos; [reflexivity|].
    cbn [List.length Nat.eqb]. apply photoLoop_urls. }
  split; [exact Hu|]. split; [|split].
  - unfold photoData. destruct uploadedPhotos; [reflexivity|].
    cbn [List.length Nat.eqb]. apply photoLoop_ids.
  - apply photoData_length.
  - split; intros H.
    + rewrite H in Hu. simpl in Hu. now symmetry.
    + now subst.
Qed.

(** X2.  Along the spiral the anchors climb and close in on the axis:
    of two items of the same list, the one of larger index stands
    higher and nearer the axis, so no two items share an anchor. *)
Theorem spiral_anchors_ordered (random : nat -> R) (count i j : nat)
    (u v : string) :
  (i < j)%nat -> (j < count)%nat ->
  let a := tapePos (photoItem random count i u) in
  let b := tapePos (photoItem random count j v) in
  y a < y b
  /\ sqrt (x b * x b + z b * z b) < sqrt (x a * x a + z a * z a)
  /\ a <> b.
Proof.
  intros Hij Hjc a b.
  assert (Hc : 0 < INR count) by (apply lt_0_INR; lia).
  assert (Hlt : INR i < INR j) by now apply lt_INR.
  assert (Hy : spiralY count i < spiralY count j).
  { unfold spiralY. cbv zeta.
    assert (INR i / INR count < INR j / INR count).
    { unfold Rdiv. apply Rmult_lt_compat_r;
        [now apply Rinv_0_lt_compat|assumption]. }
    lra. }
  assert (Hr : spiralRadius count j < spiralRadius count i).
  { rewrite !spiralRadius_cone. lra. }
  pose proof (spiralRadius_pos count i ltac:(lia)) as Hri.
  pose proof (spiralRadius_pos count j Hjc) as Hrj.
  assert (Hya : y a = spiralY count i) by reflexivity.
  assert (Hyb : y b = spiralY count j) by reflexivity.
  split; [rewrite Hya, Hyb; exact Hy|].
  split.
  - unfold a, b, photoItem, spiralAnchor. simpl.
    rewrite !axis_distance by lra. exact Hr.
  - intros Hab. rewrite Hab in Hya. lra.
Qed.

(** X2 for the first two of three photos. *)
Lemma spiral_anchors_ordered_first_two :
  let a := tapePos (photoItem (fun _ => 0.5) 3 0 "a") in
  let b := tapePos (photoItem (fun _ => 0.5) 3 1 "b") in
  y a < y b /\ a <> b.
Proof.
  intros a b.
  destruct (spiral_anchors_ordered (fun _ => 0.5) 3 0 1 "a" "b")
    as (Hy & _ & Hne); [lia|lia|].
  split; [exact Hy|exact Hne].
Defined.

(** X3.  When [Math.random()] returns values in [[0, 1)], the
    camera-space anchor of an item lies between 6 and 10 units in front
    of the camera, both bounds included, and within 80% of the extent
    assumed visible at that distance, and the background anchor lies in
    the closed box [[-12.5, 12.5] x [0, 10] x [-15, -5]]. *)
Theorem random_anchors_bounded (random : nat -> R) (count i : nat)
    (u : string) :
  (forall k, 0 <= random k < 1) ->
  let s := screenPos (photoItem random count i u) in
  let b := detailBackPos (photoItem random count i u) in
  let dist := - z s in
  let visibleHeight := 2 * dist * 0.41 in
  let visibleWidth := visibleHeight * 1.6 in
  6 <= dist <= 10
  /\ Rabs (x s) <= 0.8 * (visibleWidth / 2)
  /\ Rabs (y s) <= 0.8 * (visibleHeight / 2)
  /\ -12.5 <= x b <= 12.5
  /\ 0 <= y b <= 10
  /\ -15 <= z b <= -5.
Proof.
  intros Hr s b dist visibleHeight visibleWidth.
  unfold s, b, photoItem in *. cbn [screenPos detailBackPos x y z] in *.
  pose proof (Hr (6 * i)%nat) as H0.
  pose proof (Hr (6 * i + 1)%nat) as H1.
  pose proof (Hr (6 * i + 2)%nat) as H2.
  pose proof (Hr (6 * i + 3)%nat) as H3.
  pose proof (Hr (6 * i + 4)%nat) as H4.
  pose proof (Hr (6 * i + 5)%nat) as H5.
  set (r0 := random (6 * i)%nat) in *.
  set (r1 := random (6 * i + 1)%nat) in *.
  set (r2 := random (6 * i + 2)%nat) in *.
  set (r3 := random (6 * i + 3)%nat) in *.
  set (r4 := random (6 * i + 4)%nat) in *.
  set (r5 := random (6 * i + 5)%nat) in *.
  assert (Hd : dist = 6 + r0 * 4) by (unfold dist; ring).
  split; [lra|].
  split.
  { unfold visibleWidth, visibleHeight. rewrite Hd.
    apply Rabs_le. split; nra. }
  split.
  { unfold visibleHeight. rewrite Hd. apply Rabs_le. split; nra. }
  repeat split; lra.
Qed.

(** X3 with a source that always returns one half. *)
Lemma random_anchors_bounded_half :
  let s := screenPos (photoItem (fun _ => 0.5) 3 1 "b") in
  6 <= - z s <= 10.
Proof.
  intros s.
  destruct (random_anchors_bounded (fun _ => 0.5) 3 1 "b") as (H & _).
  - intros _. lra.
  - exact H.
Defined.

End ItemList.

(** ** The branches of the target *)

Section Branches.
Import THREE Polaroids.
Context `{E : Engine}.

Lemma recede_offsets_bounded (data : PhotoData) :
  4 <= Rabs (keepClear (recedeRX data)) <= 20
  /\ Rabs (recedeRY data) <= 12.
Proof.
  pose proof (SIN_bound (recedeSeed data)) as Hs.
  pose proof (COS_bound (recedeSeed data * 1.5)) as Hc.
  split; [split; [apply keepClear_clear|]|].
  - unfold keepClear.
    destruct (Rlt_dec (Rabs (recedeRX data)) 4) as [Hin|Hout].
    + destruct (Rlt_dec 0 (recedeRX data)).
      * rewrite Rabs_pos_eq; lra.
      * rewrite Rabs_left; lra.
    + unfold recedeRX. apply Rabs_le. lra.
  - unfold recedeRY. apply Rabs_le. lra.
Qed.

(** X4.  A background item of the detail view is sent 25 units in front
    of the camera and then moved along the camera's right vector by at
    least 4 and at most 20 of its lengths, to one side or the other,
    and along its up vector by at most 12; it faces the camera from
    there at half size. *)
Theorem recede_target_off_centre (state : FrameState)
    (parent : option Matrix4) (data : PhotoData) (isFullScreen : bool)
    (selectedPhoto : option string) (aspectRatio : R) :
  isSelected selectedPhoto data = false ->
  isDetailMode selectedPhoto = true ->
  let cam := camera state in
  let t := resolveTarget state parent data isFullScreen selectedPhoto
             aspectRatio in
  let center :=
    add (THREE.position cam)
        (multiplyScalar
           (applyQuaternion (vec3 0 0 (-1)) (THREE.quaternion cam)) 25) in
  let right := applyQuaternion (vec3 1 0 0) (THREE.quaternion cam) in
  let up := applyQuaternion (vec3 0 1 0) (THREE.quaternion cam) in
  exists lateral vertical,
    4 <= Rabs lateral <= 20
    /\ Rabs vertical <= 12
    /\ targetPos t
       = toParentSpace parent
           (add (add center (multiplyScalar right lateral))
                (multiplyScalar up vertical))
    /\ targetRot t
       = lookAt (add (add center (multiplyScalar right lateral))
                     (multiplyScalar up vertical)) (THREE.position cam)
    /\ targetScale t = vec3 0.5 0.5 0.5.
Proof.
  intros Hsel Hdet cam t center right up. subst t.
  rewrite (resolveTarget_recede _ _ _ _ _ _ Hsel Hdet).
  destruct (recede_offsets_bounded data) as [Hx Hy].
  exists (keepClear (recedeRX data)), (recedeRY data).
  split; [exact Hx|]. split; [exact Hy|].
  repeat split; reflexivity.
Qed.

(** X5.  While a selection is set the full-screen flag changes nothing
    in a frame: same target, same factor, same new pose. *)
Theorem detail_ignores_fullscreen (g : option Group) (state : FrameState)
    (delta : R) (data : PhotoData) (selectedPhoto : option string)
    (aspectRatio : R) :
  isDetailMode selectedPhoto = true ->
  useFrame g state delta data true selectedPhoto aspectRatio
  = useFrame g state delta data false selectedPhoto aspectRatio
  /\ lerpSpeed true selectedPhoto = 8
  /\ lerpSpeed false selectedPhoto = 8.
Proof.
  intros Hdet. unfold useFrame, resolveTarget, lerpSpeed. rewrite Hdet.
  split; [|split; reflexivity].
  destruct g as [g|]; [|reflexivity].
  destruct (isSelected selectedPhoto data); reflexivity.
Qed.

(** X6.  In full screen without a selection the target of an item is
    its camera-space anchor carried into the world by the camera matrix
    and into the space of the parent, displaced by at most 0.1 on x and
    on y and not at all on z; the item faces the camera at its natural
    size. *)
Theorem scatter_target_drift (state : FrameState)
    (parent : option Matrix4) (data : PhotoData) (aspectRatio : R) :
  let cam := camera state in
  let t := resolveTarget state parent data true None aspectRatio in
  let worldPos := applyMatrix4 (screenPos data) (matrixWorld cam) in
  let anchor := toParentSpace parent worldPos in
  Rabs (x (targetPos t) - x anchor) <= 0.1
  /\ Rabs (y (targetPos t) - y anchor) <= 0.1
  /\ z (targetPos t) = z anchor
  /\ targetRot t = lookAt worldPos (THREE.position cam)
  /\ targetScale t = vec3 1 1 1.
Proof.
  intros cam t worldPos anchor.
  unfold t, resolveTarget, isSelected, isDetailMode. simpl.
  fold cam. fold worldPos. fold anchor.
  split.
  { match goal with |- Rabs (_ + sin ?a * _ - _) <= _ =>
      pose proof (SIN_bound a); apply Rabs_le; lra end. }
  split.
  { match goal with |- Rabs (_ + cos ?a * _ - _) <= _ =>
      pose proof (COS_bound a); apply Rabs_le; lra end. }
  repeat split; reflexivity.
Qed.

(** The rotation about the vertical axis that the formation branch
    applies to an anchor. *)
Lemma formationTarget_time (cam : Camera) (time : R) (data : PhotoData) :
  targetPos (formationTarget {| camera := cam; elapsedTime := time |} data)
  = vec3 (x (tapePos data) * cos (time * 0.2)
          - z (tapePos data) * sin (time * 0.2))
         (y (tapePos data))
         (x (tapePos data) * sin (time * 0.2)
          + z (tapePos data) * cos (time * 0.2)).
Proof. reflexivity. Qed.

(** X7.  The formation turns at constant speed: the target after a
    further [d] seconds is the current target turned by [d * 0.2] about
    the vertical axis, and after [10 * PI] seconds the whole target
    pose is back where it was. *)
Theorem formation_turns (cam : Camera) (parent : option Matrix4)
    (data : PhotoData) (aspectRatio time d : R) :
  let at_ := fun s =>
    resolveTarget {| camera := cam; elapsedTime := s |} parent data
      false None aspectRatio in
  let now := targetPos (at_ time) in
  targetPos (at_ (time + d))
  = vec3 (x now * cos (d * 0.2) - z now * sin (d * 0.2))
         (y now)
         (x now * sin (d * 0.2) + z now * cos (d * 0.2))
  /\ at_ (time + 10 * PI) = at_ time.
Proof.
  intros at_ now.
  assert (Hpos : forall s, targetPos (at_ s)
                 = vec3 (x (tapePos data) * cos (s * 0.2)
                         - z (tapePos data) * sin (s * 0.2))
                        (y (tapePos data))
                        (x (tapePos data) * sin (s * 0.2)
                         + z (tapePos data) * cos (s * 0.2))).
  { intros s. unfold at_. rewrite resolveTarget_formation.
    apply formationTarget_time. }
  split.
  - unfold now. rewrite !Hpos. cbn [x y z].
    replace ((time + d) * 0.2) with (time * 0.2 + d * 0.2) by lra.
    rewrite cos_plus, sin_plus. f_equal; ring.
  - assert (Hc : cos ((time + 10 * PI) * 0.2) = cos (time * 0.2)).
    { rewrite <- (cos_period (time * 0.2) 1). f_equal. simpl. lra. }
    assert (Hs : sin ((time + 10 * PI) * 0.2) = sin (time * 0.2)).
    { rewrite <- (sin_period (time * 0.2) 1). f_equal. simpl. lra. }
    unfold at_. rewrite !resolveTarget_formation.
    unfold formationTarget. cbn [elapsedTime]. rewrite Hc, Hs.
    reflexivity.
Qed.

Lemma lerp_one (a v : Vector3) : lerp a v 1 = v.
Proof. destruct a, v. unfold lerp. simpl. f_equal; ring. Qed.

Lemma lerp_at_target (v : Vector3) (alpha : R) : lerp v v alpha = v.
Proof. destruct v. unfold lerp. simpl. f_equal; ring. Qed.

(** X8.  A frame multiplies the distances of the live position and of
    the live scale to their targets by [|1 - delta * rate|]: the frame
    whose delta is [1 / rate] lands exactly on the target, a pose that
    is on its target stays there whatever the delta, and the parent of
    the node is kept. *)
Theorem useFrame_distance_factor (g : Group) (state : FrameState)
    (delta : R) (data : PhotoData) (isFullScreen : bool)
    (selectedPhoto : option string) (aspectRatio : R) :
  let rate := lerpSpeed isFullScreen selectedPhoto in
  let t := resolveTarget state (parent g) data isFullScreen selectedPhoto
             aspectRatio in
  exists g',
    useFrame (Some g) state delta data isFullScreen selectedPhoto
      aspectRatio = Some g'
    /\ parent g' = parent g
    /\ distanceTo (position g') (targetPos t)
       = Rabs (1 - delta * rate) * distanceTo (position g) (targetPos t)
    /\ distanceTo (scale g') (targetScale t)
       = Rabs (1 - delta * rate) * distanceTo (scale g) (targetScale t)
    /\ (delta * rate = 1 ->
        position g' = targetPos t /\ scale g' = targetScale t)
    /\ (position g = targetPos t -> position g' = targetPos t)
    /\ (scale g = targetScale t -> scale g' = targetScale t).
Proof.
  intros rate t.
  exists (applyLerp g t (delta * rate)).
  split; [reflexivity|]. split; [reflexivity|].
  unfold applyLerp. cbn [position scale].
  split; [apply lerp_distance|]. split; [apply lerp_distance|].
  split; [intros ->; split; apply lerp_one|].
  split; intros ->; apply lerp_at_target.
Qed.

End Branches.

(** X4 for the eighth of eight photos while the first is selected. *)
Lemma recede_target_off_centre_eighth :
  let data := Polaroids.photoItem (fun _ => 0.5) 8 7 "h.png" in
  let t := Polaroids.resolveTarget (UnrotatedEngine.state 0)
             UnrotatedEngine.sceneParent data false
             (Some "a.png"%string) 1 in
  4 <= Rabs (THREE.x (Polaroids.targetPos t)) <= 20
  /\ Polaroids.targetScale t = THREE.vec3 0.5 0.5 0.5.
Proof.
  intros data t.
  destruct (recede_target_off_centre (UnrotatedEngine.state 0)
              UnrotatedEngine.sceneParent data false
              (Some "a.png"%string) 1 eq_refl eq_refl)
    as (lateral & vertical & Hl & _ & Hp & _ & Hs).
  fold t in Hp, Hs. split; [|exact Hs].
  rewrite Hp. unfold UnrotatedEngine.sceneParent. simpl.
  match goal with |- _ <= Rabs ?e <= _ =>
    replace e with lateral by ring end.
  exact Hl.
Defined.

(** X5 for the selected photo of the evaluation scene. *)
Lemma detail_ignores_fullscreen_selected :
  Polaroids.useFrame (Some UnrotatedEngine.nodeA) (UnrotatedEngine.state 0)
    0.1 UnrotatedEngine.photoA true UnrotatedEngine.selectedA 1
  = Polaroids.useFrame (Some UnrotatedEngine.nodeA)
      (UnrotatedEngine.state 0) 0.1 UnrotatedEngine.photoA false
      UnrotatedEngine.selectedA 1.
Proof.
  apply (detail_ignores_fullscreen (Some UnrotatedEngine.nodeA)
           (UnrotatedEngine.state 0) 0.1 UnrotatedEngine.photoA
           UnrotatedEngine.selectedA 1).
  reflexivity.
Defined.

(** X8 for a frame of an eighth of a second on the selected photo: the
    factor is 1 and the node lands on its target. *)
Lemma useFrame_distance_factor_lands :
  exists g',
    Polaroids.useFrame (Some UnrotatedEngine.nodeA)
      (UnrotatedEngine.state 0) 0.125 UnrotatedEngine.photoA false
      UnrotatedEngine.selectedA 1 = Some g'
    /\ Polaroids.position g'
       = Polaroids.targetPos UnrotatedEngine.targetA.
Proof.
  destruct (useFrame_distance_factor UnrotatedEngine.nodeA
              (UnrotatedEngine.state 0) 0.125 UnrotatedEngine.photoA false
              UnrotatedEngine.selectedA 1)
    as (g' & Hg & _ & _ & _ & Hone & _).
  exists g'. split; [exact Hg|].
  apply Hone. unfold Polaroids.lerpSpeed. simpl. lra.
Defined.

(** ** The state and the drawing of an item *)

Section ItemComponent.
Import THREE Polaroids PolaroidItem.

Lemma pointer_keeps_loading (sel : option string) (st : ItemState)
    (e : PointerEvent) :
  let st' := onPointerEvent sel st e in
  texture st' = texture st /\ error st' = error st
  /\ aspectRatio st' = aspectRatio st /\ loaded st' = loaded st.
Proof.
  destruct e; cbn [onPointerEvent]; unfold handlePointerOver;
    [destruct (negb (isDetailMode sel))|]; repeat split.
Qed.

Lemma photoData_map_url (random : nat -> R) (uploadedPhotos : list string) :
  map url (photoData random uploadedPhotos) = uploadedPhotos.
Proof.
  unfold photoData. destruct uploadedPhotos; [reflexivity|].
  cbn [List.length Nat.eqb]. apply photoLoop_urls.
Qed.

(** X9.  Through any sequence of pointer events on an item, a hovered
    item always has the pointer cursor, a pointer that leaves always
    resets cursor and hover, and while a selection is set no hover can
    begin: the item stays unhovered and the cursor is never turned into
    a pointer by it. *)
Theorem pointer_events_invariant (selectedPhoto : option string)
    (events : list PointerEvent) (cursor0 : string) :
  let st := fold_left (onPointerEvent selectedPhoto) events
              (initial cursor0) in
  (hovered st = true -> cursor st = "pointer"%string)
  /\ (hovered (handlePointerOut st) = false
      /\ cursor (handlePointerOut st) = "auto"%string)
  /\ (isDetailMode selectedPhoto = true ->
      hovered st = false
      /\ (cursor st = cursor0 \/ cursor st = "auto"%string))
  /\ photoMaterial st = photoMaterial (initial cursor0).
Proof.
  intros st. subst st.
  assert (Hinv : forall es st0,
            (hovered st0 = true -> cursor st0 = "pointer"%string) ->
            let st := fold_left (onPointerEvent selectedPhoto) es st0 in
            hovered st = true -> cursor st = "pointer"%string).
  { induction es as [|e es IH]; intros st0 H0; [exact H0|].
    cbn [fold_left]. apply IH.
    destruct e; cbn [onPointerEvent]; unfold handlePointerOver;
      [destruct (negb (isDetailMode selectedPhoto)); simpl; auto
      |simpl; discriminate]. }
  assert (Hdet : isDetailMode selectedPhoto = true -> forall es st0,
            hovered st0 = false ->
            (cursor st0 = cursor0 \/ cursor st0 = "auto"%string) ->
            let st := fold_left (onPointerEvent selectedPhoto) es st0 in
            hovered st = false
            /\ (cursor st = cursor0 \/ cursor st = "auto"%string)).
  { intros Hd. induction es as [|e es IH]; intros st0 Hh Hc;
      [split; assumption|].
    cbn [fold_left]. apply IH.
    - destruct e; cbn [onPointerEvent]; unfold handlePointerOver;
        [rewrite Hd; simpl; assumption|reflexivity].
    - destruct e; cbn [onPointerEvent]; unfold handlePointerOver;
        [rewrite Hd; simpl; assumption|right; reflexivity]. }
  assert (Hmat : forall es st0,
            photoMaterial (fold_left (onPointerEvent selectedPhoto) es st0)
            = photoMaterial st0).
  { induction es as [|e es IH]; intros st0; [reflexivity|].
    cbn [fold_left]. rewrite IH.
    destruct (pointer_keeps_loading selectedPhoto st0 e) as (Ht & He & _).
    unfold photoMaterial. now rewrite Ht, He. }
  split; [apply Hinv; discriminate|].
  split; [split; reflexivity|].
  split; [|apply Hmat].
  intros Hd. apply Hdet; auto.
Qed.

(** X9 on two pointer-over events while the photo "a.png" is
    selected. *)
Lemma pointer_events_invariant_in_detail :
  let st := fold_left (onPointerEvent (Some "a.png"%string))
              [PointerOver; PointerOver] (initial "grab") in
  hovered st = false /\ cursor st = "grab"%string.
Proof.
  intros st.
  destruct (pointer_events_invariant (Some "a.png"%string)
              [PointerOver; PointerOver] "grab") as (_ & _ & Hd & _).
  destruct (Hd eq_refl) as [Hh _]. split; [exact Hh|reflexivity].
Defined.

(** X10.  The photo area shows what the last load event left: the
    texture after a load that succeeded, whatever failed before; the
    dark red placeholder after a load that failed, even when an earlier
    texture is still held; the grey placeholder before any event.  A
    loaded image sets the aspect ratio to its width over its height. *)
Theorem photoMaterial_last_event (events : list LoadEvent)
    (st : ItemState) (loadedTex : Texture) (cursor0 : string) :
  let after := fun es => fold_left onLoadEvent es st in
  photoMaterial (after (events ++ [Loaded loadedTex])) = MeshBasic loadedTex
  /\ photoMaterial (after (events ++ [Failed])) = MeshStandard "#550000"
  /\ photoMaterial (initial cursor0) = MeshStandard "#cccccc"
  /\ (forall width height,
        image loadedTex = Some (width, height) ->
        aspectRatio (after (events ++ [Loaded loadedTex]))
        = width / height)
  /\ (image loadedTex = None ->
      aspectRatio (after (events ++ [Loaded loadedTex]))
      = aspectRatio (after events)).
Proof.
  intros after. unfold after. rewrite !fold_left_app. cbn [fold_left].
  set (st' := fold_left onLoadEvent events st).
  split; [reflexivity|].
  split; [unfold photoMaterial; simpl; destruct (texture st'); reflexivity|].
  split; [reflexivity|].
  split.
  - intros width height Hi. simpl. now rewrite Hi.
  - intros Hi. simpl. now rewrite Hi.
Qed.

(** X10 on a first load that fails and a second that brings an image
    of 400 by 300. *)
Lemma photoMaterial_last_event_retry :
  let tex := {| src := "a.png"; image := Some (400, 300) |} in
  let st := fold_left onLoadEvent [Failed; Loaded tex] (initial "auto") in
  photoMaterial st = MeshBasic tex /\ aspectRatio st = 400 / 300.
Proof.
  intros tex st.
  destruct (photoMaterial_last_event [Failed] (initial "auto") tex "auto")
    as (Hm & _ & _ & Ha & _).
  split; [exact Hm|]. apply (Ha 400 300). reflexivity.
Defined.

(** X11.  For every positive aspect ratio, the photo is set into the
    frame with the margins of a Polaroid: 0.1 above, 0.3 below, 0.1 on
    either side, and 0.01 in front of the face of the frame.  The ring
    of the selected item is centred on the photo, between the frame and
    the photo; the hanging string is centred 0.4 above the top edge. *)
Theorem photo_margins (aspectRatio : R) :
  0 < aspectRatio ->
  let frameTop := y framePosition + y (frameSize aspectRatio) / 2 in
  let frameBottom := y framePosition - y (frameSize aspectRatio) / 2 in
  let frameFace := z framePosition + z (frameSize aspectRatio) / 2 in
  let photoTop := y (photoPosition aspectRatio)
                  + snd (photoSize aspectRatio) / 2 in
  let photoBottom := y (photoPosition aspectRatio)
                     - snd (photoSize aspectRatio) / 2 in
  frameTop - photoTop = 0.1
  /\ photoBottom - frameBottom = 0.3
  /\ (x (frameSize aspectRatio) - fst (photoSize aspectRatio)) / 2 = 0.1
  /\ x (photoPosition aspectRatio) = x framePosition
  /\ z (photoPosition aspectRatio) - frameFace = 0.01
  /\ x (ringPosition aspectRatio) = x (photoPosition aspectRatio)
  /\ y (ringPosition aspectRatio) = y (photoPosition aspectRatio)
  /\ frameFace < z (ringPosition aspectRatio)
     < z (photoPosition aspectRatio)
  /\ y (stringPosition aspectRatio) - frameTop = 0.4.
Proof.
  intros _.
  unfold framePosition, frameSize, photoPosition, photoSize, stringPosition,
    ringPosition, frameHeight, frameWidth, photoWidth, frameDepth.
  cbn [x y z fst snd]. repeat split; lra.
Qed.

(** X11 for a square photo: the frame is 1.2 wide and 1.4 high. *)
Lemma photo_margins_square :
  frameSize 1 = vec3 1.2 1.4 frameDepth
  /\ y framePosition + y (frameSize 1) / 2
     - (y (photoPosition 1) + snd (photoSize 1) / 2) = 0.1
  /\ y (photoPosition 1) - snd (photoSize 1) / 2
     - (y framePosition - y (frameSize 1) / 2) = 0.3.
Proof.
  destruct (photo_margins 1) as (Ht & Hb & _); [lra|].
  split; [|split; [exact Ht|exact Hb]].
  unfold frameSize, frameHeight, frameWidth, photoHeight, photoWidth.
  f_equal; lra.
Defined.

(** X12.  An item is drawn as selected (gold frame and ring, no tape)
    exactly when its url is the selected one.  In a list of distinct
    photos at most one item is drawn so; items that share a url are
    selected together. *)
Theorem selected_item_unique (random : nat -> R)
    (uploadedPhotos : list string) (selectedPhoto : option string)
    (d1 d2 : PhotoData) :
  In d1 (photoData random uploadedPhotos) ->
  In d2 (photoData random uploadedPhotos) ->
  (ringShown selectedPhoto d1 = true <-> selectedPhoto = Some (url d1))
  /\ tapeShown selectedPhoto d1 = negb (ringShown selectedPhoto d1)
  /\ (frameColor selectedPhoto d1 = "#FFD700"%string
      <-> ringShown selectedPhoto d1 = true)
  /\ (url d1 = url d2 ->
      ringShown selectedPhoto d1 = ringShown selectedPhoto d2)
  /\ (NoDup uploadedPhotos ->
      ringShown selectedPhoto d1 = true ->
      ringShown selectedPhoto d2 = true -> d1 = d2).
Proof.
  intros H1 H2.
  split; [apply isSelected_true_iff|]. split; [reflexivity|].
  split.
  { unfold frameColor, ringShown.
    destruct (isSelected selectedPhoto d1); split; auto; discriminate. }
  split.
  { intros Hu. unfold ringShown, isSelected. now rewrite Hu. }
  intros Hnd Hr1 Hr2.
  apply isSelected_true_iff in Hr1. apply isSelected_true_iff in Hr2.
  assert (Hu : url d1 = url d2) by congruence.
  apply In_nth_error in H1. apply In_nth_error in H2.
  destruct H1 as [i Hi]. destruct H2 as [j Hj].
  assert (Hui : nth_error uploadedPhotos i = Some (url d1)).
  { rewrite <- (photoData_map_url random uploadedPhotos).
    rewrite nth_error_map, Hi. reflexivity. }
  assert (Huj : nth_error uploadedPhotos j = Some (url d2)).
  { rewrite <- (photoData_map_url random uploadedPhotos).
    rewrite nth_error_map, Hj. reflexivity. }
  assert (Hij : i = j).
  { rewrite NoDup_nth_error in Hnd. apply Hnd.
    - apply nth_error_Some. congruence.
    - congruence. }
  subst j. congruence.
Qed.

(** X12 on two distinct photos, the first of which is selected. *)
Lemma selected_item_unique_two_photos :
  let d1 := photoItem (fun _ => 0.5) 2 0 "a" in
  let d2 := photoItem (fun _ => 0.5) 2 1 "b" in
  ringShown (Some "a"%string) d1 = true
  /\ ringShown (Some "a"%string) d2 = false.
Proof.
  intros d1 d2.
  destruct (selected_item_unique (fun _ => 0.5) ["a"; "b"]%string
              (Some "a"%string) d1 d2) as (H1 & _ & _ & _ & Hu).
  - left. reflexivity.
  - right. left. reflexivity.
  - assert (Hr : ringShown (Some "a"%string) d1 = true)
      by (apply H1; reflexivity).
    split; [exact Hr|].
    destruct (ringShown (Some "a"%string) d2) eqn:H2; [|reflexivity].
    assert (Hne : NoDup ["a"; "b"]%string).
    { constructor; [intros [H|[]]; discriminate|].
      constructor; [intros []|constructor]. }
    specialize (Hu Hne Hr eq_refl).
    apply (f_equal id) in Hu. discriminate.
Defined.

End ItemComponent.

(** ** The snow field: opacity, recycling, buffers *)

Section SnowMore.
Import THREE Snow SnowBuffers.

Lemma clamp_range (v : R) : 0 <= clamp v 0 1 <= 1.
Proof.
  unfold clamp. split.
  - apply Rmin_glb; [apply Rmax_r|lra].
  - apply Rmin_r.
Qed.

Lemma smoothstep_range (edge0 edge1 v : R) :
  0 <= smoothstep edge0 edge1 v <= 1.
Proof.
  unfold smoothstep.
  pose proof (clamp_range ((v - edge0) / (edge1 - edge0))) as Ht.
  set (t := clamp _ 0 1) in *. cbv zeta. split.
  - apply Rmult_le_pos; [nra|lra].
  - assert (H : 0 <= (1 - t) * (1 - t) * (1 + 2 * t))
      by (apply Rmult_le_pos; [nra|lra]).
    replace (t * t * (3 - 2 * t))
      with (1 - (1 - t) * (1 - t) * (1 + 2 * t)) by ring.
    lra.
Qed.

Lemma smoothstep_above (edge0 edge1 v : R) :
  edge0 < edge1 -> edge1 <= v -> smoothstep edge0 edge1 v = 1.
Proof.
  intros He Hv. unfold smoothstep, clamp.
  assert (Hq : 1 <= (v - edge0) / (edge1 - edge0)).
  { apply Rmult_le_reg_r with (edge1 - edge0); [lra|].
    unfold Rdiv. rewrite Rmult_assoc, Rinv_l by lra. lra. }
  rewrite Rmax_left by lra. rewrite Rmin_right by assumption. ring.
Qed.

(** X13.  The opacity factor of a particle lies between 0 and 1, and it
    is exactly 1 over the middle four fifths of the height: particles
    fade only within a tenth of the height from the top and from the
    bottom. *)
Theorem vAlpha_range (uTime uHeight uSpeed : R) (p : Particle) :
  0 < uHeight ->
  let posY := y (vertexPos uTime uHeight uSpeed p) in
  0 <= vAlpha uTime uHeight uSpeed p <= 1
  /\ (- 0.4 * uHeight <= posY <= 0.4 * uHeight ->
      vAlpha uTime uHeight uSpeed p = 1).
Proof.
  intros Hh posY. unfold vAlpha. cbv zeta.
  change (wrappedY uTime uHeight uSpeed p) with posY.
  set (normY := (posY - - uHeight / 2.0) / uHeight).
  pose proof (smoothstep_range 0.0 0.1 normY) as H1.
  pose proof (smoothstep_range 0.9 1.0 normY) as H2.
  split; [split; nra|].
  intros Hmid.
  assert (Hn : 0.1 <= normY <= 0.9).
  { unfold normY. replace 2.0 with 2 by lra.
    assert (Hinv : 0 < / uHeight) by now apply Rinv_0_lt_compat.
    assert (E : (posY - - uHeight / 2) / uHeight
                = posY / uHeight + 1 / 2) by (field; lra).
    rewrite E.
    assert (- 0.4 <= posY / uHeight <= 0.4).
    { split.
      - apply Rmult_le_reg_r with uHeight; [assumption|].
        unfold Rdiv. rewrite Rmult_assoc, Rinv_l by lra. lra.
      - apply Rmult_le_reg_r with uHeight; [assumption|].
        unfold Rdiv. rewrite Rmult_assoc, Rinv_l by lra. lra. }
    lra. }
  rewrite (smoothstep_above 0.0 0.1 normY) by lra.
  rewrite (smoothstep_below 0.9 1.0 normY) by lra. lra.
Qed.

(** X13 for the particle [centre] of the default field at time 0. *)
Lemma vAlpha_range_centre :
  vAlpha 0 defaultHeight uSpeedValue centre = 1.
Proof.
  destruct (vAlpha_range 0 defaultHeight uSpeedValue centre) as [_ Hmid].
  - unfold defaultHeight. lra.
  - apply Hmid. unfold vertexPos. cbn [y].
    rewrite (centre_wrappedY 0 0) by lra. unfold defaultHeight. lra.
Defined.

Lemma mod_shift (a b : R) : 0 < b -> mod_ (a - b) b = mod_ a b.
Proof.
  intros Hb. pose proof (mod_range a b Hb) as Hr.
  unfold mod_ at 2. unfold mod_ at 1 in Hr. unfold floor in *.
  set (k := Int_part (a / b)) in *.
  rewrite (mod_unique (a - b) b (k - 1)); [|assumption|].
  - rewrite minus_IZR. ring.
  - rewrite minus_IZR.
    replace (a - b - b * (IZR k - 1)) with (a - b * IZR k) by ring.
    exact Hr.
Qed.

(** X14.  A particle is recycled without end: with fall speed
    [uSpeed * (0.5 + aRandom * 0.5)], after every
    [uHeight / speed] seconds it is back at the same height with the
    same opacity. *)
Theorem snow_fall_period (uTime uHeight uSpeed : R) (p : Particle) :
  0 < uHeight -> 0 < uSpeed -> 0 <= aRandom p ->
  let speed := uSpeed * (0.5 + aRandom p * 0.5) in
  let period := uHeight / speed in
  0 < period
  /\ y (vertexPos (uTime + period) uHeight uSpeed p)
     = y (vertexPos uTime uHeight uSpeed p)
  /\ vAlpha (uTime + period) uHeight uSpeed p
     = vAlpha uTime uHeight uSpeed p.
Proof.
  intros Hh Hs Hr speed period.
  assert (Hsp : 0 < speed) by (unfold speed; nra).
  assert (Hp : 0 < period)
    by (unfold period; apply Rdiv_lt_0_compat; assumption).
  assert (Hw : wrappedY (uTime + period) uHeight uSpeed p
               = wrappedY uTime uHeight uSpeed p).
  { unfold wrappedY. cbv zeta. f_equal.
    rewrite <- (mod_shift (y (position p)
                           - uTime * uSpeed * (0.5 + aRandom p * 0.5)
                           - - uHeight / 2.0) uHeight Hh).
    apply mod_congr. fold speed.
    assert (E : period * speed = uHeight) by (unfold period; field; lra).
    replace ((uTime + period) * uSpeed * (0.5 + aRandom p * 0.5))
      with (uTime * speed + period * speed) by (unfold speed; ring).
    rewrite E. unfold speed. ring. }
  split; [exact Hp|]. split.
  - unfold vertexPos. cbn [y]. exact Hw.
  - unfold vAlpha. cbv zeta. now rewrite Hw.
Qed.

(** X14 for [centre]: it falls one unit per second through a height of
    40, so its period is 40 seconds. *)
Lemma snow_fall_period_centre :
  y (vertexPos (7 + 40) defaultHeight uSpeedValue centre)
  = y (vertexPos 7 defaultHeight uSpeedValue centre).
Proof.
  destruct (snow_fall_period 7 defaultHeight uSpeedValue centre)
    as (_ & Hy & _).
  - unfold defaultHeight. lra.
  - unfold uSpeedValue. lra.
  - simpl. lra.
  - replace (7 + 40)
      with (7 + defaultHeight
                / (uSpeedValue * (0.5 + aRandom centre * 0.5))).
    + exact Hy.
    + unfold defaultHeight, uSpeedValue. simpl. lra.
Defined.

Lemma wrappedY_inside (uTime uHeight uSpeed : R) (p : Particle) :
  0 < uHeight ->
  let newY := y (position p) - uTime * uSpeed * (0.5 + aRandom p * 0.5) in
  - uHeight / 2 <= newY < uHeight / 2 ->
  wrappedY uTime uHeight uSpeed p = newY.
Proof.
  intros Hh newY Hin. unfold wrappedY. fold newY.
  replace 2.0 with 2 by lra.
  rewrite (mod_unique (newY - - uHeight / 2) uHeight 0) by lra. lra.
Qed.

(** X15.  Inside the extent the wrap changes nothing: for a particle
    that starts within the extent, while the height it has fallen to
    stays a thousandth of the height away from both bounds, the wrap
    takes half the height off and puts it back, and the particle is
    drawn at that height. *)
Theorem snow_wrap_identity (uTime uHeight uSpeed : R) (p : Particle) :
  0 < uHeight ->
  - uHeight / 2 <= y (position p) <= uHeight / 2 ->
  let newY := y (position p) - uTime * uSpeed * (0.5 + aRandom p * 0.5) in
  - uHeight / 2 + uHeight / 1000 <= newY <= uHeight / 2 - uHeight / 1000 ->
  y (vertexPos uTime uHeight uSpeed p) = newY.
Proof.
  intros Hh _ newY Hin. unfold vertexPos. cbn [y].
  apply wrappedY_inside; [assumption|]. fold newY. lra.
Qed.

(** X15 for [centre] three seconds in. *)
Lemma snow_wrap_identity_centre :
  y (vertexPos 3 defaultHeight uSpeedValue centre) = -3.
Proof.
  rewrite (snow_wrap_identity 3 defaultHeight uSpeedValue centre).
  - unfold uSpeedValue. simpl. lra.
  - unfold defaultHeight. lra.
  - unfold defaultHeight. simpl. lra.
  - unfold defaultHeight, uSpeedValue. simpl. lra.
Defined.

Lemma nth_setNth_eq {A} (l : list A) (i : nat) (v d : A) :
  (i < List.length l)%nat -> nth i (UIOverlay.setNth l i v) d = v.
Proof.
  revert i; induction l as [|a l IH]; intros [|i]; simpl; intros H;
    try lia; auto.
  apply IH. lia.
Qed.

Lemma nth_setNth_ne {A} (l : list A) (i j : nat) (v d : A) :
  i <> j -> nth j (UIOverlay.setNth l i v) d = nth j l d.
Proof.
  revert i j; induction l as [|a l IH]; intros [|i] [|j]; simpl;
    intros H; auto; try congruence.
Qed.

Lemma fillOne_sized store random range height count b i :
  sized count b -> sized count (fillOne store random range height b i).
Proof.
  intros (Hp & Hr & Hs). unfold sized, fillOne. cbn [positions randoms sizes].
  now rewrite !length_setNth.
Qed.

Lemma fillOne_other store random range height b i j :
  i <> j -> vertex (fillOne store random range height b i) j = vertex b j.
Proof.
  intros Hne. unfold vertex, fillOne. cbn [positions randoms sizes].
  rewrite !nth_setNth_ne by lia. reflexivity.
Qed.

Lemma fillOne_written store random range height count b i :
  sized count b -> (i < count)%nat ->
  vertex (fillOne store random range height b i) i
  = written store random range height i.
Proof.
  intros (Hp & Hr & Hs) Hi. unfold vertex, fillOne, written.
  cbn [positions randoms sizes].
  f_equal; [f_equal|..].
  - rewrite !nth_setNth_ne by lia. apply nth_setNth_eq. lia.
  - rewrite nth_setNth_ne by lia. apply nth_setNth_eq.
    rewrite length_setNth. lia.
  - apply nth_setNth_eq. rewrite !length_setNth. lia.
  - apply nth_setNth_eq. lia.
  - apply nth_setNth_eq. lia.
Qed.

Lemma fold_fillOne store random range height count (n : nat) :
  forall a b,
    sized count b -> (a + n <= count)%nat ->
    let b' := fold_left (fillOne store random range height) (seq a n) b in
    sized count b'
    /\ (forall j, (a <= j < a + n)%nat ->
                  vertex b' j = written store random range height j)
    /\ (forall j, (j < a)%nat -> vertex b' j = vertex b j).
Proof.
  induction n as [|n IH]; intros a b Hs Hle; cbn [seq fold_left].
  - split; [assumption|]. split; [intros j Hj; lia|reflexivity].
  - destruct (IH (S a) (fillOne store random range height b a)
                (fillOne_sized _ _ _ _ _ _ _ Hs) ltac:(lia))
      as (Hs' & Hw & Ho).
    split; [assumption|]. split.
    + intros j Hj. destruct (Nat.eq_dec j a) as [->|Hne].
      * rewrite Ho by lia.
        apply (fillOne_written _ _ _ _ count); [assumption|lia].
      * apply Hw. lia.
    + intros j Hj. rewrite Ho by lia. apply fillOne_other. lia.
Qed.

Lemma allocate_sized count : sized count (allocate count).
Proof. unfold sized, allocate. simpl. now rewrite !repeat_length. Qed.

(** X16.  The buffers hold one vertex per particle: vertex [i] is what
    iteration [i] wrote, as the arrays keep it, whatever the conversion
    of the arrays is.  With [Math.random()] in [[0, 1)], positive
    extents and a conversion that keeps the order of the numbers, the
    vertex lies in the closed box of the field as the arrays keep its
    bounds, its speed seed between what they keep of 0 and of 1, and
    its size between what they keep of 2 and of 6. *)
Theorem snow_buffers (store : R -> R) (random : nat -> R) (count i : nat)
    (range height : R) :
  (i < count)%nat ->
  monotone store ->
  (forall k, 0 <= random k < 1) ->
  0 < range -> 0 < height ->
  let b := fill store random count range height in
  let v := vertex b i in
  List.length (positions b) = (count * 3)%nat
  /\ List.length (randoms b) = count
  /\ List.length (sizes b) = count
  /\ v = written store random range height i
  /\ store (- range / 2) <= x (position v) <= store (range / 2)
  /\ store (- height / 2) <= y (position v) <= store (height / 2)
  /\ store (- range / 2) <= z (position v) <= store (range / 2)
  /\ store 0 <= aRandom v <= store 1
  /\ store 2 <= aSize v <= store 6.
Proof.
  intros Hi Hmono Hr Hrange Hheight b v.
  destruct (fold_fillOne store random range height count count 0%nat
              (allocate count) (allocate_sized count) ltac:(lia))
    as ((Hp & Hrn & Hs) & Hw & _).
  fold (fill store random count range height) in Hp, Hrn, Hs, Hw.
  fold b in Hp, Hrn, Hs, Hw.
  assert (Hv : v = written store random range height i) by (apply Hw; lia).
  pose proof (Hr (5 * i)%nat) as H0.
  pose proof (Hr (5 * i + 1)%nat) as H1.
  pose proof (Hr (5 * i + 2)%nat) as H2.
  pose proof (Hr (5 * i + 3)%nat) as H3.
  pose proof (Hr (5 * i + 4)%nat) as H4.
  split; [exact Hp|]. split; [exact Hrn|]. split; [exact Hs|].
  split; [exact Hv|].
  rewrite Hv. unfold written. cbn [position aRandom aSize x y z].
  repeat split; apply Hmono; nra.
Qed.

(** X16 for the third of ten particles of the default field, with a
    source that always returns one quarter.  The values written are
    -10, 0.25 and 3, which single precision holds as they are: the
    conversion is taken to keep every number. *)
Lemma snow_buffers_third_of_ten :
  let v := vertex (fill (fun r => r) (fun _ => 0.25) 10 40 40) 2 in
  position v = vec3 (-10) (-10) (-10) /\ aRandom v = 0.25 /\ aSize v = 3.
Proof.
  intros v.
  destruct (snow_buffers (fun r => r) (fun _ => 0.25) 10 2 40 40)
    as (_ & _ & _ & Hv & _);
    [lia|intros a b Hab; exact Hab|intros _; lra|lra|lra|].
  fold v in Hv. rewrite Hv. unfold written. cbn [position aRandom aSize].
  split; [f_equal; lra|split; lra].
Defined.

Lemma pow_unit (b e : R) : 0 <= b <= 1 -> 0 <= e -> 0 <= pow b e <= 1.
Proof.
  intros Hb He. unfold pow. destruct (Rle_dec b 0) as [_|Hpos]; [lra|].
  unfold Rpower. split; [left; apply exp_pos|].
  assert (Hln : ln b <= 0).
  { rewrite <- ln_1. destruct (Req_dec b 1) as [->|Hne]; [lra|].
    left. apply ln_increasing; lra. }
  rewrite <- exp_0.
  destruct (Req_dec (e * ln b) 0) as [->|Hne]; [lra|].
  left. apply exp_increasing. nra.
Qed.

(** X17.  A fragment farther than 0.5 from the centre of its point is
    discarded; every other fragment is white with an alpha between 0
    and [0.8 * vAlpha], which is [0.8 * vAlpha] at the centre and 0 on
    the rim. *)
Theorem fragment_alpha_range (pointCoord : R * R) (vAlpha_ : R) :
  0 <= vAlpha_ ->
  let dx := fst pointCoord - 0.5 in
  let dy := snd pointCoord - 0.5 in
  let d := sqrt (dx * dx + dy * dy) in
  (0.5 < d -> fragmentAlpha pointCoord vAlpha_ = None)
  /\ (d <= 0.5 ->
      exists a, fragmentAlpha pointCoord vAlpha_ = Some a
                /\ 0 <= a <= 0.8 * vAlpha_)
  /\ (d = 0.5 -> fragmentAlpha pointCoord vAlpha_ = Some 0)
  /\ fragmentAlpha (0.5, 0.5) vAlpha_ = Some (0.8 * vAlpha_).
Proof.
  intros Hv dx dy d.
  assert (Hd0 : 0 <= d) by apply sqrt_pos.
  split; [|split; [|split]].
  - intros Hout. unfold fragmentAlpha. cbv zeta. fold dx dy. fold d.
    destruct (Rlt_dec 0.5 d); [reflexivity|contradiction].
  - intros Hin. unfold fragmentAlpha. cbv zeta. fold dx dy. fold d.
    destruct (Rlt_dec 0.5 d); [lra|].
    eexists. split; [reflexivity|].
    pose proof (pow_unit (1.0 - d * 2.0) 1.5 ltac:(lra) ltac:(lra)) as Hp.
    set (q := pow _ _) in *. split; nra.
  - intros Heq. unfold fragmentAlpha. cbv zeta. fold dx dy. fold d.
    destruct (Rlt_dec 0.5 d); [lra|].
    rewrite Heq. unfold pow.
    destruct (Rle_dec (1.0 - 0.5 * 2.0) 0); [|lra].
    f_equal. ring.
  - unfold fragmentAlpha. cbn [fst snd].
    replace ((0.5 - 0.5) * (0.5 - 0.5) + (0.5 - 0.5) * (0.5 - 0.5)) with 0
      by lra.
    rewrite sqrt_0.
    destruct (Rlt_dec 0.5 0); [lra|].
    unfold pow. destruct (Rle_dec (1.0 - 0 * 2.0) 0); [lra|].
    replace (1.0 - 0 * 2.0) with 1 by lra.
    unfold Rpower. rewrite ln_1, Rmult_0_r, exp_0. f_equal. ring.
Qed.

(** X17 at the corner and at the centre of a point of full opacity. *)
Lemma fragment_alpha_range_corner_centre :
  fragmentAlpha (0, 0) 1 = None /\ fragmentAlpha (0.5, 0.5) 1 = Some 0.8.
Proof.
  destruct (fragment_alpha_range (0, 0) 1 ltac:(lra)) as (Hout & _).
  destruct (fragment_alpha_range (0.5, 0.5) 1 ltac:(lra))
    as (_ & _ & _ & Hc).
  split.
  - apply Hout. cbn [fst snd].
    apply Rsqr_incrst_0; [|lra|apply sqrt_pos].
    rewrite Rsqr_sqrt by lra. unfold Rsqr. lra.
  - rewrite Hc. f_equal. lra.
Defined.

End SnowMore.

(** ** The upload handler: edge cases *)

Section UploadMore.
Import UIOverlay.

Lemma readers_no_image (files : list File) :
  (forall f, In f files -> isImage f = false) -> readers files = [].
Proof.
  induction files as [|f files IH]; intros H; [reflexivity|].
  simpl. pose proof (H f (or_introl eq_refl)) as Hf.
  unfold isImage in Hf. rewrite Hf. simpl.
  apply IH. intros g Hg. apply H. now right.
Qed.

Lemma fold_settle_nil (order : list nat) :
  fold_left (settle []) order [] = [].
Proof.
  induction order as [|i order IH]; [reflexivity|].
  simpl. unfold settle at 2. destruct i; simpl; exact IH.
Qed.

(** X18.  A selection that holds files but no image calls
    [onPhotosUpload] with the empty list, at once and whatever happens
    later; only an empty selection is ignored. *)
Theorem handleFileChange_no_image (files : list File) (order : list nat) :
  files <> [] ->
  (forall f, In f files -> isImage f = false) ->
  handleFileChange (Some files) order = Some []
  /\ handleFileChange (Some []) order = None
  /\ handleFileChange None order = None.
Proof.
  intros Hne Hno. split; [|split; reflexivity].
  unfold handleFileChange. destruct files as [|f files]; [congruence|].
  cbn [List.length Nat.eqb]. rewrite (readers_no_image _ Hno).
  unfold promiseAll. cbn [List.length repeat].
  now rewrite fold_settle_nil.
Qed.

(** X18 for a selection of one text file. *)
Lemma handleFileChange_no_image_text_file :
  handleFileChange
    (Some [ {| type := "text/plain"; result := Some "data:t"%string |} ])
    [0%nat] = Some [].
Proof.
  apply handleFileChange_no_image.
  - discriminate.
  - intros f [<-|[]]. reflexivity.
Defined.

Lemma readers_pending (files : list File) (f : File) :
  In f files -> isImage f = true -> Js.truthy (result f) = false ->
  In None (readers files).
Proof.
  intros Hin Hi Ht. induction files as [|g files IH]; [destruct Hin|].
  simpl. destruct Hin as [->|Hin].
  - unfold isImage in Hi. rewrite Hi. simpl. left.
    unfold readerPromise. now rewrite Ht.
  - destruct (negb (Js.startsWith (type g) "image/")); [auto|].
    right. auto.
Qed.

(** X19.  One image whose read never yields a non-empty result blocks
    the whole upload: [onPhotosUpload] is not called, in whatever order
    the other reads complete. *)
Theorem handleFileChange_blocked (files : list File) (f : File)
    (order : list nat) :
  In f files -> isImage f = true -> Js.truthy (result f) = false ->
  handleFileChange (Some files) order = None.
Proof.
  intros Hin Hi Ht.
  destruct (handleFileChange (Some files) order) as [urls|] eqn:H;
    [|reflexivity].
  unfold handleFileChange in H.
  destruct (Nat.eqb (List.length files) 0); [discriminate|].
  apply promiseAll_sound in H.
  pose proof (readers_pending files f Hin Hi Ht) as Hp.
  rewrite H in Hp. apply in_map_iff in Hp.
  destruct Hp as (u & Hu & _). discriminate.
Qed.

(** X19 for two images, the second of which fails to load. *)
Lemma handleFileChange_blocked_second_fails :
  handleFileChange
    (Some [ {| type := "image/png"; result := Some "data:a"%string |};
            {| type := "image/png"; result := None |} ])
    [0; 1]%nat = None.
Proof.
  apply (handleFileChange_blocked _ {| type := "image/png"; result := None |}).
  - right. left. reflexivity.
  - reflexivity.
  - reflexivity.
Defined.

(** A slot is filled only by the load event of its own index. *)
Lemma fold_settle_origin promises (order : list nat) :
  forall slots j v,
    nth_error (fold_left (settle promises) order slots) j = Some (Some v) ->
    nth_error slots j = Some (Some v) \/ In j order.
Proof.
  induction order as [|i order IH]; intros slots j v H; [now left|].
  cbn [fold_left] in H. apply IH in H. destruct H as [H|H]; [|right; now right].
  unfold settle in H.
  destruct (nth_error promises i) as [[u|]|]; auto.
  destruct (nth_error slots i) as [[w|]|]; auto.
  destruct (Nat.eq_dec i j) as [->|Hne]; [right; now left|].
  rewrite nth_error_setNth_ne in H by assumption. now left.
Qed.

(** Once every slot is filled, later events change nothing. *)
Lemma fold_settle_full promises (urls : list string) (more : list nat) :
  fold_left (settle promises) more (map Some urls) = map Some urls.
Proof.
  induction more as [|i more IH]; [reflexivity|].
  cbn [fold_left]. replace (settle promises (map Some urls) i)
    with (map Some urls); [exact IH|].
  unfold settle. destruct (nth_error promises i) as [[u|]|]; auto.
  destruct (nth_error (map Some urls) i) as [[w|]|] eqn:Hn; auto.
  apply nth_error_In, in_map_iff in Hn. destruct Hn as (? & ? & _).
  discriminate.
Qed.

(** X20.  [onPhotosUpload] is called only after the load event of every
    image has fired; what it receives does not depend on the order of
    the events, and events that come after the call change nothing. *)
Theorem handleFileChange_order (files : list File) (order : list nat)
    (urls : list string) :
  handleFileChange (Some files) order = Some urls ->
  (forall j, (j < List.length urls)%nat -> In j order)
  /\ (forall order' urls',
        handleFileChange (Some files) order' = Some urls' -> urls' = urls)
  /\ (forall more,
        handleFileChange (Some files) (order ++ more) = Some urls).
Proof.
  intros H. unfold handleFileChange in *.
  destruct (Nat.eqb (List.length files) 0); [discriminate|].
  pose proof (promiseAll_sound _ _ _ H) as Hp.
  split; [|split].
  - intros j Hj. unfold promiseAll in H. apply collect_Some in H.
    destruct (nth_error urls j) as [v|] eqn:Hv;
      [|apply nth_error_None in Hv; lia].
    assert (Hs : nth_error
                   (fold_left (settle (readers files)) order
                      (repeat None (List.length (readers files)))) j
                 = Some (Some v)).
    { rewrite H. rewrite nth_error_map, Hv. reflexivity. }
    apply fold_settle_origin in Hs. destruct Hs as [Hs|Hs]; [|exact Hs].
    apply nth_error_In, repeat_spec in Hs. discriminate.
  - intros order' urls' H'. apply promiseAll_sound in H'.
    rewrite Hp in H'.
    revert urls' H'. clear. induction urls as [|u urls IH];
      intros [|u' urls'] H'; simpl in *; try discriminate; [reflexivity|].
    injection H' as Hu Hr. subst. f_equal. now apply IH.
  - intros more. unfold promiseAll in *. rewrite fold_left_app.
    apply collect_Some in H. rewrite H.
    rewrite fold_settle_full. apply collect_map_Some.
Qed.

(** X20 for two images read in reverse order. *)
Lemma handleFileChange_order_reversed :
  let files := [ {| type := "image/png"; result := Some "data:a"%string |};
                 {| type := "image/png"; result := Some "data:b"%string |} ] in
  handleFileChange (Some files) [1; 0; 1]%nat
  = Some ["data:a"; "data:b"]%string.
Proof.
  intros files.
  destruct (handleFileChange_order files [1; 0]%nat
              ["data:a"; "data:b"]%string eq_refl) as (_ & _ & Hmore).
  exact (Hmore [1%nat]).
Defined.

End UploadMore.

(** ** The overlay and the orbit controls *)

Section OverlayAndControls.
Import OverlayView Scene.

(** X21.  What a click on the overlay can call: [onBack] exactly while
    a selection is set; the file picker exactly on the main page (no
    selection, not full screen); [onClearPhotos] exactly on the main
    page with photos; [onToggleFullScreen] exactly without selection
    when full screen is on or photos are present.  Each callback is
    reached through one button only. *)
Theorem overlay_clicks (hasPhotos isFullScreen : bool)
    (selectedPhoto : option string) :
  let view := render hasPhotos isFullScreen selectedPhoto in
  let set := Js.truthy selectedPhoto in
  ((exists b, click view b = Some OnBack) <-> set = true)
  /\ ((exists b, click view b = Some HandleUploadClick)
      <-> set = false /\ isFullScreen = false)
  /\ ((exists b, click view b = Some OnClearPhotos)
      <-> set = false /\ isFullScreen = false /\ hasPhotos = true)
  /\ ((exists b, click view b = Some OnToggleFullScreen)
      <-> set = false /\ (isFullScreen = true \/ hasPhotos = true))
  /\ (forall b b' c, click view b = Some c -> click view b' = Some c ->
                     b = b').
Proof.
  intros view set. unfold view, set, render.
  destruct (Js.truthy selectedPhoto), isFullScreen, hasPhotos;
    cbn [click find button disabled onClick negb];
    (split; [|split; [|split; [|split]]]);
    try (split;
         [ intros [[] H]; cbn in H; try discriminate; intuition congruence
         | intros H; try (exfalso; intuition congruence);
           first [ exists BackButton; reflexivity
                 | exists ExitFullScreenButton; reflexivity
                 | exists FullScreenButton; reflexivity
                 | exists ImportButton; reflexivity
                 | exists ClearButton; reflexivity ] ]);
    try (intros [] [] c H H'; cbn in H, H'; congruence).
Qed.

(** X21 on the main page without photos: no click reaches
    [onToggleFullScreen], the file picker can be opened. *)
Lemma overlay_clicks_no_photos :
  (~ exists b, click (render false false None) b = Some OnToggleFullScreen)
  /\ exists b, click (render false false None) b = Some HandleUploadClick.
Proof.
  destruct (overlay_clicks false false None) as (_ & Hu & _ & Ht & _).
  split.
  - intros H. apply Ht in H. destruct H as [_ [H|H]]; discriminate.
  - apply Hu. split; reflexivity.
Defined.

(** X22.  The selection switches the three components together: the
    orbit controls are disabled exactly while a click on a photo calls
    nothing, while the Back button is offered and while the effective
    mode is forced to CHAOS; the scene turns by itself only in full
    screen with the controls enabled. *)
Theorem controls_follow_selection (rotationSpeed : R)
    (hasPhotos isFullScreen : bool) (selectedPhoto : option string)
    (data : Polaroids.PhotoData) :
  let c := controls rotationSpeed isFullScreen selectedPhoto in
  (enabled c = true
   <-> In (Polaroids.OnPhotoClick (Polaroids.url data))
          (Polaroids.handleClick data selectedPhoto))
  /\ (enabled c = false
      <-> click (render hasPhotos isFullScreen selectedPhoto) BackButton
          = Some OnBack)
  /\ (enabled c = false ->
      forall mode, Experience.effectiveMode mode selectedPhoto
                   = Experience.CHAOS)
  /\ (enabled c = true ->
      forall mode, Experience.effectiveMode mode selectedPhoto = mode)
  /\ (autoRotate c = true <-> enabled c = true /\ isFullScreen = true)
  /\ autoRotateSpeed c = rotationSpeed.
Proof.
  intros c. unfold c, controls, Experience.effectiveMode,
    Experience.isDetailView, Polaroids.handleClick, Polaroids.isDetailMode,
    render.
  cbn [enabled autoRotate autoRotateSpeed].
  destruct (Js.truthy selectedPhoto), isFullScreen, hasPhotos;
    cbn [negb andb click find button disabled onClick In];
    repeat split; intros; try discriminate; try reflexivity;
    try (intuition congruence); auto.
Qed.

(** X22 while the photo "a.png" is selected in full screen. *)
Lemma controls_follow_selection_detail :
  let c := controls 2 true (Some "a.png"%string) in
  enabled c = false /\ autoRotate c = false
  /\ Experience.effectiveMode Experience.FORMATION (Some "a.png"%string)
     = Experience.CHAOS.
Proof.
  intros c.
  destruct (controls_follow_selection 2 true true (Some "a.png"%string)
              UnrotatedEngine.photoA) as (_ & _ & Hchaos & _ & _).
  split; [reflexivity|]. split; [reflexivity|].
  apply Hchaos. reflexivity.
Defined.

End OverlayAndControls.

(** ** The two revisions of the item component *)

Section Revisions.
Import THREE.
Context `{E : Engine}.

(** X23.  Outside the background branch the earlier revision moves and
    turns a node as the current one does: for the selected item, and
    for every item while no selection is set, a frame leaves the same
    parent, position and orientation in both. *)
Theorem revisions_agree (g : Polaroids.Group)
    (state : Polaroids.FrameState) (delta : R) (data : Polaroids.PhotoData)
    (isFullScreen : bool) (selectedPhoto : option string)
    (aspectRatio : R) :
  Polaroids.isSelected selectedPhoto data = true
  \/ Polaroids.isDetailMode selectedPhoto = false ->
  let earlier := {| PolaroidsEarlier.parent := Polaroids.parent g;
                    PolaroidsEarlier.position := Polaroids.position g;
                    PolaroidsEarlier.quaternion := Polaroids.quaternion g |} in
  exists g' earlier',
    Polaroids.useFrame (Some g) state delta data isFullScreen selectedPhoto
      aspectRatio = Some g'
    /\ PolaroidsEarlier.useFrame (Some earlier) state delta data
         isFullScreen selectedPhoto = Some earlier'
    /\ PolaroidsEarlier.parent earlier' = Polaroids.parent g'
    /\ PolaroidsEarlier.position earlier' = Polaroids.position g'
    /\ PolaroidsEarlier.quaternion earlier' = Polaroids.quaternion g'.
Proof.
  intros Hbranch earlier.
  eexists. eexists. split; [reflexivity|]. split; [reflexivity|].
  cbn [PolaroidsEarlier.parent PolaroidsEarlier.position
       PolaroidsEarlier.quaternion Polaroids.parent Polaroids.position
       Polaroids.quaternion Polaroids.applyLerp earlier].
  unfold PolaroidsEarlier.resolveTarget, Polaroids.resolveTarget.
  destruct Hbranch as [Hsel|Hdet].
  - rewrite Hsel. repeat split; reflexivity.
  - rewrite Hdet.
    destruct (Polaroids.isSelected selectedPhoto data), isFullScreen;
      repeat split; reflexivity.
Qed.

End Revisions.

(** X23 for the selected photo of the evaluation scene. *)
Lemma revisions_agree_selected :
  exists g' earlier',
    Polaroids.useFrame (Some UnrotatedEngine.nodeA)
      (UnrotatedEngine.state 0) 0.1 UnrotatedEngine.photoA false
      UnrotatedEngine.selectedA 1 = Some g'
    /\ PolaroidsEarlier.useFrame
         (Some {| PolaroidsEarlier.parent := UnrotatedEngine.sceneParent;
                  PolaroidsEarlier.position := THREE.vec3 0 0 0;
                  PolaroidsEarlier.quaternion := UnrotatedEngine.identity |})
         (UnrotatedEngine.state 0) 0.1 UnrotatedEngine.photoA false
         UnrotatedEngine.selectedA = Some earlier'
    /\ PolaroidsEarlier.position earlier' = Polaroids.position g'.
Proof.
  destruct (revisions_agree UnrotatedEngine.nodeA (UnrotatedEngine.state 0)
              0.1 UnrotatedEngine.photoA false UnrotatedEngine.selectedA 1)
    as (g' & earlier' & Hg & He & _ & Hp & _).
  - left. reflexivity.
  - exists g', earlier'. split; [exact Hg|]. split; [exact He|exact Hp].
Defined.

(** ** The size of the selected photo *)

Section SelectedScale.
Import THREE Polaroids.
Context `{E : Engine}.

(** X24.  For a field of view between 0 and 180 degrees and positive
    aspect ratios, the selected item is scaled by a positive factor,
    and of two photos the wider one, whose frame is lower, gets the
    larger factor. *)
Theorem selected_scale_positive (state : FrameState)
    (parent : option Matrix4) (data : PhotoData) (isFullScreen : bool)
    (narrow wide : R) :
  0 < fov (camera state) < 180 ->
  0 < narrow < wide ->
  let factor := fun aspectRatio =>
    x (targetScale (resolveTarget state parent data isFullScreen
                      (Some (url data)) aspectRatio)) in
  0 < factor narrow < factor wide
  /\ frameHeight wide < frameHeight narrow.
Proof.
  intros Hfov Har factor.
  assert (Hf : forall ar, factor ar
                 = visibleHeight (fov (camera state)) 5 * 0.7
                   / frameHeight ar).
  { intros ar. unfold factor. rewrite resolveTarget_selected. reflexivity. }
  assert (Htan : 0 < tan (fov (camera state) * PI / 360)).
  { pose proof PI_RGT_0 as Hpi. apply tan_gt_0; nra. }
  assert (Hv : 0 < visibleHeight (fov (camera state)) 5 * 0.7)
    by (unfold visibleHeight; nra).
  pose proof (frameHeight_pos narrow ltac:(lra)) as Hn.
  pose proof (frameHeight_pos wide ltac:(lra)) as Hw.
  assert (Hlt : frameHeight wide < frameHeight narrow).
  { unfold frameHeight, photoHeight, photoWidth.
    assert (/ wide < / narrow) by (apply Rinv_lt_contravar; nra).
    unfold Rdiv. lra. }
  split; [|exact Hlt].
  rewrite !Hf. unfold Rdiv. split.
  - apply Rmult_lt_0_compat; [lra|]. apply Rinv_0_lt_compat. lra.
  - apply Rmult_lt_compat_l; [lra|].
    apply Rinv_lt_contravar; [nra|exact Hlt].
Qed.

End SelectedScale.

(** X24 for a portrait and a landscape photo seen by the camera of the
    evaluation engine. *)
Lemma selected_scale_positive_portrait_landscape :
  let factor := fun aspectRatio =>
    THREE.x (Polaroids.targetScale
               (Polaroids.resolveTarget (UnrotatedEngine.state 0)
                  UnrotatedEngine.sceneParent UnrotatedEngine.photoA false
                  (Some (Polaroids.url UnrotatedEngine.photoA))
                  aspectRatio)) in
  0 < factor 0.75 < factor 1.5.
Proof.
  intros factor.
  destruct (selected_scale_positive (UnrotatedEngine.state 0)
              UnrotatedEngine.sceneParent UnrotatedEngine.photoA false
              0.75 1.5) as [H _].
  - simpl. lra.
  - lra.
  - exact H.
Defined.
